(** * Beeflang: a shallow embedding of the tree-walking evaluator

    The development follows [internal/evaluator/evaluator.go] and [main.go].
    Go pointers to runtime objects are modelled as located values: every
    object carries the address it was allocated at, and the evaluator state
    carries the allocation counter.  Runtime objects are never mutated
    after construction, so an address together with the contents is all
    the evaluator can observe; reference comparison ([left == right] on
    interface values) compares the dynamic type and the address.
    Environments are mutable and shared between closures, so they live in
    a store inside the state and are referred to by index.

    Evaluation may diverge (while loops, recursion), so [Eval] takes fuel;
    a Go run-time panic is an explicit outcome. *)

From Stdlib Require Import ZArith String Ascii List Lia DecimalString.
From stdpp Require Import base option gmap strings list.

Set Warnings "-register-all".
Open Scope Z_scope.

(* ================================================================== *)
(** ** Tokens (package [token]): only the fields the evaluator reads *)

Module token.

Record Token := mkToken {
  Type_ : string;
  Literal : string;
  Line : Z;
  Column : Z
}.

End token.

(* ================================================================== *)
(** ** Syntax trees (package [ast]) *)

Module ast.

Record Identifier := mkIdentifier {
  IdentToken : token.Token;
  IdentValue : string
}.

Inductive Expression :=
  | Ident (id : Identifier)
  | IntegerLiteral (tok : token.Token) (Value : Z)
  | BooleanLiteral (tok : token.Token) (Value : bool)
  | StringLiteral (tok : token.Token) (Value : string)
  | PrefixExpression (tok : token.Token) (Operator : string)
      (Right : Expression)
  | InfixExpression (tok : token.Token) (Left : Expression)
      (Operator : string) (Right : Expression)
  | FunctionCall (tok : token.Token) (Function : Expression)
      (Arguments : list Expression)
  | MemberAccessExpression (tok : token.Token) (Object : Expression)
      (Member : Identifier).

Inductive Statement :=
  | VariableDeclaration (tok : token.Token) (Name : Identifier)
      (Value : Expression)
  | AssignmentStatement (tok : token.Token) (Name : Identifier)
      (Value : Expression)
  | IfStatement (tok : token.Token) (Condition : Expression)
      (Consequence : BlockStatement) (Alternative : option BlockStatement)
  | WhileLoop (tok : token.Token) (Condition : Expression)
      (Body : BlockStatement)
  | FunctionDeclaration (tok : token.Token) (Name : Identifier)
      (Parameters : list Identifier) (Body : BlockStatement)
  | ReturnStatement (tok : token.Token) (ReturnValue : Expression)
  | WrangleStatement (tok : token.Token) (ModuleName : Identifier)
  | ExpressionStatement (tok : token.Token) (Expr : Expression)
with BlockStatement :=
  | Block (tok : token.Token) (Statements : list Statement).

Record Program := mkProgram { Statements : list Statement }.

(** What [Eval]'s type switch dispatches on. *)
Inductive Node :=
  | ProgramNode (p : Program)
  | ExprNode (e : Expression)
  | StmtNode (s : Statement)
  | BlockNode (b : BlockStatement).

Definition BlockStatements (b : BlockStatement) : list Statement :=
  match b with Block _ ss => ss end.

End ast.

(* ================================================================== *)
(** ** Runtime objects (package [object]) *)

Module object.

Definition Addr := positive.
Bind Scope positive_scope with Addr.
(** Environments are referred to by their index in the machine's store. *)
Abbreviation EnvPtr := nat (only parsing).

(** The native routines behind [object.Builtin.Fn]; the only two the
    evaluator ever creates are those of [createIOModule]. *)
Inductive BuiltinFn := preach | input.

(** An [object.Object] interface value: [nil], or a pointer (the address
    [p]) to a struct of one of the object types. *)
Inductive Object :=
  | nil
  | Integer (p : Addr) (Value : Z)
  | Boolean (p : Addr) (Value : bool)
  | String (p : Addr) (Value : string)
  | Null (p : Addr)
  | Function (p : Addr) (Parameters : list ast.Identifier)
      (Body : ast.BlockStatement) (Env : EnvPtr)
  | Builtin (p : Addr) (Fn : BuiltinFn)
  | Module_ (p : Addr) (Name : string) (Members : gmap string Object)
  | ReturnValue (p : Addr) (Value : Object)
  | Error (p : Addr) (Message : string) (Line Column : Z) (File : string).

(** The package-level singletons. *)
Definition TRUE : Object := Boolean 1%positive true.
Definition FALSE : Object := Boolean 2%positive false.
Definition NULL : Object := Null 3%positive.

(** First address handed out by an allocation. *)
Definition first_free : Addr := 4%positive.

(** The dynamic type of an interface value. *)
Inductive Kind :=
  | KInteger | KBoolean | KString | KNull | KFunction | KBuiltin
  | KModule | KReturnValue | KError.

#[global] Instance Kind_eq_dec : EqDecision Kind.
Proof. solve_decision. Defined.

Definition pointer (o : Object) : option (Kind * Addr) :=
  match o with
  | nil => None
  | Integer p _ => Some (KInteger, p)
  | Boolean p _ => Some (KBoolean, p)
  | String p _ => Some (KString, p)
  | Null p => Some (KNull, p)
  | Function p _ _ _ => Some (KFunction, p)
  | Builtin p _ => Some (KBuiltin, p)
  | Module_ p _ _ => Some (KModule, p)
  | ReturnValue p _ => Some (KReturnValue, p)
  | Error p _ _ _ _ => Some (KError, p)
  end.

(** Go's [a == b] on two interface values holding pointers: same dynamic
    type and same address (two nil interfaces are equal). *)
Definition same (a b : Object) : bool :=
  bool_decide (pointer a = pointer b).

(** Modelled from the spec: the [object] package is not among the
    sources.  [Type()] of Integer, Boolean, String and Null is what the
    package's tests assert, ERROR and RETURN_VALUE are the strings the
    evaluator compares against; the names of the remaining three kinds
    appear nowhere and follow the same upper-case convention.  Calling
    a method on a nil interface panics, hence the option. *)
Definition Type_ (o : Object) : option string :=
  match o with
  | nil => None
  | Integer _ _ => Some "INTEGER"
  | Boolean _ _ => Some "BOOLEAN"
  | String _ _ => Some "STRING"
  | Null _ => Some "NULL"
  | Function _ _ _ _ => Some "FUNCTION"
  | Builtin _ _ => Some "BUILTIN"
  | Module_ _ _ _ => Some "MODULE"
  | ReturnValue _ _ => Some "RETURN_VALUE"
  | Error _ _ _ _ _ => Some "ERROR"
  end%string.

(** [%d] of [fmt.Sprintf]. *)
Definition itoa (z : Z) : string := NilZero.string_of_int (Z.to_int z).

(** Modelled from the spec: [Inspect()] lives in the absent [object]
    package.  Integer, Boolean, String and Null render as the package's
    tests assert; Error renders in the three formats of the error plan
    (file attached, line known, no location).  No available source fixes
    the rendering of the other kinds; they get a fixed tag. *)
Definition Inspect (o : Object) : option string :=
  match o with
  | nil => None
  | Integer _ v => Some (itoa v)
  | Boolean _ b => Some (if b then "true" else "false")
  | String _ s => Some s
  | Null _ => Some "null"
  | Function _ _ _ _ => Some "<function>"
  | Builtin _ _ => Some "<builtin>"
  | Module_ _ _ _ => Some "<module>"
  | ReturnValue _ _ => Some "<return>"
  | Error _ msg line col file =>
      if bool_decide (file <> "") then
        Some ("Error at " +:+ file +:+ ":" +:+ itoa line +:+ ":"
                +:+ itoa col +:+ " - " +:+ msg)
      else if bool_decide (line > 0) then
        Some ("Error at line " +:+ itoa line +:+ ", column " +:+ itoa col
                +:+ " - " +:+ msg)
      else Some ("Error: " +:+ msg)
  end%string.

(** Modelled from the spec: an environment is a mapping from identifier
    to value plus an optional reference to the enclosing environment. *)
Record Environment := mkEnvironment {
  store : gmap string Object;
  outer : option EnvPtr
}.

End object.

(* ================================================================== *)
(** ** The machine: allocation counter, environment store, console *)

Module machine.
Import object.

(** The Go run-time panics the evaluator can run into. *)
Inductive PanicReason :=
  | NilDereference
  | IndexOutOfRange (index length : nat)
  | DivideByZero
  | InterfaceConversion.

Record State := mkState {
  next : Addr;                    (* next free object address *)
  envs : list Environment;        (* the environments allocated so far *)
  stdout : string;                (* everything written to standard output *)
  stdin : list string             (* the lines still to be read *)
}.

Inductive Outcome (A : Type) :=
  | Done (a : A) (st : State)
  | Panic (r : PanicReason) (st : State)
  | OutOfFuel.
Arguments Done {A} a st.
Arguments Panic {A} r st.
Arguments OutOfFuel {A}.

(** Computations of the evaluator: state in, outcome out. *)
Definition M (A : Type) : Type := State -> Outcome A.

Definition ret {A} (a : A) : M A := fun st => Done a st.

Definition bind {A B} (m : M A) (k : A -> M B) : M B :=
  fun st =>
    match m st with
    | Done a st' => k a st'
    | Panic r st' => Panic r st'
    | OutOfFuel => OutOfFuel
    end.

Definition panic {A} (r : PanicReason) : M A := fun st => Panic r st.

Definition diverge {A} : M A := fun _ => OutOfFuel.

Declare Scope eval_scope.
Delimit Scope eval_scope with eval.
Notation "'let*' x := m 'in' k" := (bind m (fun x => k))
  (at level 10, x name, m at level 100, k at level 200) : eval_scope.
Notation "m ;; k" := (bind m (fun _ => k))
  (at level 100, k at level 200, right associativity) : eval_scope.
Open Scope eval_scope.

(** The state after one object allocation. *)
Definition allocate (st : State) : State :=
  mkState (Pos.succ (next st)) (envs st) (stdout st) (stdin st).

(** [&T{...}]: a fresh address for a new object. *)
Definition new (mk : Addr -> Object) : M Object :=
  fun st => Done (mk (next st)) (allocate st).

(** A method call on an interface value panics when the value is nil. *)
Definition typeOf (o : Object) : M string :=
  match Type_ o with
  | Some t => ret t
  | None => panic NilDereference
  end.

Definition inspect (o : Object) : M string :=
  match Inspect o with
  | Some s => ret s
  | None => panic NilDereference
  end.

Definition newline : string := String.String (ascii_of_nat 10) EmptyString.

(** [fmt.Print] and [fmt.Println] of one string. *)
Definition Print (s : string) : M unit :=
  fun st =>
    Done tt (mkState (next st) (envs st) (stdout st +:+ s) (stdin st)).

Definition Println (s : string) : M unit := Print (s +:+ newline).

(** One [Scan] of a scanner over standard input: the next line, if any. *)
Definition ScanLine : M (option string) :=
  fun st =>
    match stdin st with
    | [] => Done None st
    | l :: rest =>
        Done (Some l) (mkState (next st) (envs st) (stdout st) rest)
    end.

(** *** Environments *)

(** Modelled from the spec: [NewEnvironment] of the absent [object]
    package creates an empty top-level environment. *)
Definition NewEnvironment : M EnvPtr :=
  fun st =>
    Done (length (envs st))
         (mkState (next st) (envs st ++ [mkEnvironment ∅ None])
                  (stdout st) (stdin st)).

(** Modelled from the spec: [NewEnclosedEnvironment] creates an empty
    environment whose parent is the given one. *)
Definition NewEnclosedEnvironment (parent : EnvPtr) : M EnvPtr :=
  fun st =>
    Done (length (envs st))
         (mkState (next st) (envs st ++ [mkEnvironment ∅ (Some parent)])
                  (stdout st) (stdin st)).

(** The innermost environment of the chain starting at [e] that binds
    [name].  A chain never visits more environments than exist, which
    bounds the walk. *)
Fixpoint resolve (depth : nat) (es : list Environment) (e : EnvPtr)
    (name : string) : option EnvPtr :=
  match depth with
  | O => None
  | S depth' =>
      match es !! e with
      | None => None
      | Some env =>
          match store env !! name with
          | Some _ => Some e
          | None =>
              match outer env with
              | Some parent => resolve depth' es parent name
              | None => None
              end
          end
      end
  end.

(** Modelled from the spec: lookup walks outward until found or
    exhausted; the boolean is Go's [ok]. *)
Definition Get (e : EnvPtr) (name : string) : M (Object * bool) :=
  fun st =>
    match envs st !! e with
    | None => Panic NilDereference st
    | Some _ =>
        match resolve (length (envs st)) (envs st) e name with
        | Some e' =>
            match envs st !! e' with
            | Some env' =>
                match store env' !! name with
                | Some v => Done (v, true) st
                | None => Done (nil, false) st
                end
            | None => Done (nil, false) st
            end
        | None => Done (nil, false) st
        end
    end.

Definition bindIn (es : list Environment) (e : EnvPtr) (name : string)
    (val : Object) : list Environment :=
  match es !! e with
  | Some env => <[e := mkEnvironment (<[name := val]> (store env)) (outer env)]> es
  | None => es
  end.

(** Modelled from the spec: [Set] rebinds in the innermost scope where
    the name already exists if it exists anywhere in the chain, and
    creates it in the current scope otherwise. *)
Definition Set_ (e : EnvPtr) (name : string) (val : Object) : M unit :=
  fun st =>
    match envs st !! e with
    | None => Panic NilDereference st
    | Some _ =>
        let target :=
          match resolve (length (envs st)) (envs st) e name with
          | Some e' => e'
          | None => e
          end in
        Done tt (mkState (next st) (bindIn (envs st) target name val)
                         (stdout st) (stdin st))
    end.

(** The state a process starts in. *)
Definition initial (input : list string) : State :=
  mkState first_free [] EmptyString input.

End machine.

(* ================================================================== *)
(** ** The evaluator (package [evaluator]) *)

Module evaluator.
Import object machine.
Open Scope string_scope.

(** Go's [int64]: the representative in [-2^63, 2^63) of a result. *)
Definition wrap64 (z : Z) : Z := (z + 2^63) mod 2^64 - 2^63.

(** [fmt.Sprintf] with [%s] verbs, written as concatenation of parts. *)
Definition Sprintf (parts : list string) : string :=
  fold_right String.append EmptyString parts.

Definition newError (tok : token.Token) (message : string) : M Object :=
  new (fun p => Error p message (token.Line tok) (token.Column tok) "").

Definition isError (obj : Object) : bool :=
  match Type_ obj with
  | Some t => t =? "ERROR"
  | None => false
  end.

Definition nativeBoolToBooleanObject (input : bool) : Object :=
  if input then TRUE else FALSE.

Definition evalBangOperator (right : Object) : Object :=
  if same right TRUE then FALSE
  else if same right FALSE then TRUE
  else if same right NULL then TRUE
  else FALSE.

Definition evalMinusPrefixOperator (tok : token.Token) (right : Object)
    : M Object :=
  let* t := typeOf right in
  if negb (t =? "INTEGER") then
    newError tok (Sprintf ["unknown operator: -"; t])
  else
    match right with
    | Integer _ value => new (fun p => Integer p (wrap64 (- value)))
    | _ => panic InterfaceConversion
    end.

Definition evalPrefixExpression (tok : token.Token) (operator : string)
    (right : Object) : M Object :=
  if operator =? "!" then ret (evalBangOperator right)
  else if operator =? "-" then evalMinusPrefixOperator tok right
  else
    let* t := typeOf right in
    newError tok (Sprintf ["unknown operator: "; operator; t]).

Definition unknownOperator (tok : token.Token) (operator : string)
    (left right : Object) : M Object :=
  let* lt := typeOf left in
  let* rt := typeOf right in
  newError tok (Sprintf ["unknown operator: "; lt; " "; operator; " "; rt]).

Definition evalIntegerInfixExpression (tok : token.Token)
    (operator : string) (left right : Object) : M Object :=
  match left with
  | Integer _ leftVal =>
    match right with
    | Integer _ rightVal =>
      if operator =? "+" then
        new (fun p => Integer p (wrap64 (leftVal + rightVal)))
      else if operator =? "-" then
        new (fun p => Integer p (wrap64 (leftVal - rightVal)))
      else if operator =? "*" then
        new (fun p => Integer p (wrap64 (leftVal * rightVal)))
      else if operator =? "/" then
        if (rightVal =? 0)%Z then panic DivideByZero
        else new (fun p => Integer p (wrap64 (Z.quot leftVal rightVal)))
      else if operator =? "%" then
        if (rightVal =? 0)%Z then panic DivideByZero
        else new (fun p => Integer p (wrap64 (Z.rem leftVal rightVal)))
      else if operator =? "<" then
        ret (nativeBoolToBooleanObject (leftVal <? rightVal)%Z)
      else if operator =? ">" then
        ret (nativeBoolToBooleanObject (leftVal >? rightVal)%Z)
      else if operator =? "==" then
        ret (nativeBoolToBooleanObject (leftVal =? rightVal)%Z)
      else if operator =? "!=" then
        ret (nativeBoolToBooleanObject (negb (leftVal =? rightVal)%Z))
      else if operator =? "<=" then
        ret (nativeBoolToBooleanObject (leftVal <=? rightVal)%Z)
      else if operator =? ">=" then
        ret (nativeBoolToBooleanObject (leftVal >=? rightVal)%Z)
      else unknownOperator tok operator left right
    | _ => panic InterfaceConversion
    end
  | _ => panic InterfaceConversion
  end.

Definition evalStringInfixExpression (tok : token.Token)
    (operator : string) (left right : Object) : M Object :=
  match left with
  | String _ leftVal =>
    match right with
    | String _ rightVal =>
      if operator =? "+" then
        new (fun p => String p (leftVal +:+ rightVal))
      else if operator =? "==" then
        ret (nativeBoolToBooleanObject (leftVal =? rightVal))
      else if operator =? "!=" then
        ret (nativeBoolToBooleanObject (negb (leftVal =? rightVal)))
      else unknownOperator tok operator left right
    | _ => panic InterfaceConversion
    end
  | _ => panic InterfaceConversion
  end.

(** [left.Type() == t && right.Type() == t], with Go's short circuit. *)
Definition bothOfType (t : string) (left right : Object) : M bool :=
  let* lt := typeOf left in
  if lt =? t then (let* rt := typeOf right in ret (rt =? t)) else ret false.

Definition evalInfixExpression (tok : token.Token) (operator : string)
    (left right : Object) : M Object :=
  let* integers := bothOfType "INTEGER" left right in
  if integers then evalIntegerInfixExpression tok operator left right
  else
    let* strings := bothOfType "STRING" left right in
    if strings then evalStringInfixExpression tok operator left right
    else if operator =? "==" then
      ret (nativeBoolToBooleanObject (same left right))
    else if operator =? "!=" then
      ret (nativeBoolToBooleanObject (negb (same left right)))
    else
      let* lt := typeOf left in
      let* rt := typeOf right in
      if negb (lt =? rt) then
        newError tok
          (Sprintf ["type mismatch: "; lt; " "; operator; " "; rt])
      else unknownOperator tok operator left right.

Definition isTruthy (obj : Object) : bool :=
  if same obj NULL then false
  else if same obj FALSE then false
  else if same obj TRUE then true
  else true.

Definition evalIdentifier (node : ast.Identifier) (env : EnvPtr)
    : M Object :=
  let* r := Get env (ast.IdentValue node) in
  if negb (snd r) then
    newError (ast.IdentToken node)
      (Sprintf ["identifier not found: "; ast.IdentValue node])
  else ret (fst r).

(** [result != nil && result.Type() == "RETURN_VALUE"]. *)
Definition isReturn (result : Object) : bool :=
  match Type_ result with
  | Some t => t =? "RETURN_VALUE"
  | None => false
  end.

(** *** The native routines of the io module *)

Fixpoint preachAll (args : list Object) : M unit :=
  match args with
  | [] => ret tt
  | arg :: rest =>
      let* s := inspect arg in
      Println s ;;
      preachAll rest
  end.

Definition callBuiltin (fn : BuiltinFn) (args : list Object) : M Object :=
  match fn with
  | preach =>
      preachAll args ;;
      ret NULL
  | input =>
      (match args with
           | [] => ret tt
           | prompt :: _ => let* s := inspect prompt in Print s
           end) ;;
      let* line := ScanLine in
      match line with
      | Some text => new (fun p => String p text)
      | None => new (fun p => String p "")
      end
  end.

Definition createIOModule : M Object :=
  let* mod_ := new (fun p => Module_ p "io" ∅) in
  let* preach_ := new (fun p => Builtin p preach) in
  let* input_ := new (fun p => Builtin p input) in
  match mod_ with
  | Module_ p name members =>
      ret (Module_ p name
             (<["input" := input_]> (<["preach" := preach_]> members)))
  | _ => ret mod_
  end.

Definition loadModule (name : string) : M Object :=
  if name =? "io" then createIOModule
  else new (fun p => Module_ p name ∅).

(** *** Statement and expression evaluation

    The functions below take the recursive evaluator [ev] as an argument;
    [Eval] ties the knot. *)

Section Recursive.

Variable ev : ast.Node -> EnvPtr -> M Object.

(** The loop of [evalProgram]; [result] is the Go variable of that name. *)
Fixpoint evalProgramFrom (statements : list ast.Statement) (env : EnvPtr)
    (result : Object) : M Object :=
  match statements with
  | [] => ret result
  | statement :: rest =>
      let* result := ev (ast.StmtNode statement) env in
      if isError result then ret result
      else
        match result with
        | ReturnValue _ value => ret value
        | _ => evalProgramFrom rest env result
        end
  end.

Definition evalProgram (program : ast.Program) (env : EnvPtr) : M Object :=
  evalProgramFrom (ast.Statements program) env nil.

(** The loop of [evalBlockStatement]. *)
Fixpoint evalBlockFrom (statements : list ast.Statement) (env : EnvPtr)
    (result : Object) : M Object :=
  match statements with
  | [] => ret result
  | statement :: rest =>
      let* result := ev (ast.StmtNode statement) env in
      if isError result then ret result
      else if isReturn result then ret result
      else evalBlockFrom rest env result
  end.

Definition evalBlockStatement (block : ast.BlockStatement) (env : EnvPtr)
    : M Object :=
  evalBlockFrom (ast.BlockStatements block) env nil.

Definition evalIfStatement (Condition : ast.Expression)
    (Consequence : ast.BlockStatement)
    (Alternative : option ast.BlockStatement) (env : EnvPtr) : M Object :=
  let* condition := ev (ast.ExprNode Condition) env in
  if isTruthy condition then ev (ast.BlockNode Consequence) env
  else
    match Alternative with
    | Some alternative => ev (ast.BlockNode alternative) env
    | None => ret NULL
    end.

Definition evalFunctionDeclaration (Name : ast.Identifier)
    (Parameters : list ast.Identifier) (Body : ast.BlockStatement)
    (env : EnvPtr) : M Object :=
  let* function := new (fun p => Function p Parameters Body env) in
  Set_ env (ast.IdentValue Name) function ;;
  ret function.

Definition evalReturnStatement (ReturnValue_ : ast.Expression)
    (env : EnvPtr) : M Object :=
  let* val := ev (ast.ExprNode ReturnValue_) env in
  new (fun p => ReturnValue p val).

(** [evalExpressions]: every expression is evaluated and appended. *)
Fixpoint evalExpressionsFrom (exps : list ast.Expression) (env : EnvPtr)
    (result : list Object) : M (list Object) :=
  match exps with
  | [] => ret result
  | exp :: rest =>
      let* evaluated := ev (ast.ExprNode exp) env in
      evalExpressionsFrom rest env (result ++ [evaluated])
  end.

Definition evalExpressions (exps : list ast.Expression) (env : EnvPtr)
    : M (list Object) :=
  evalExpressionsFrom exps env [].

(** The parameter-binding loop of [evalFunctionCall]:
    [for i, param := range fn.Parameters { fnEnv.Set(param.Value, args[i]) }]. *)
Fixpoint bindParameters (fnEnv : EnvPtr) (i : nat)
    (Parameters : list ast.Identifier) (args : list Object) : M unit :=
  match Parameters with
  | [] => ret tt
  | param :: rest =>
      match args !! i with
      | None => panic (IndexOutOfRange i (length args))
      | Some arg =>
          Set_ fnEnv (ast.IdentValue param) arg ;;
          bindParameters fnEnv (S i) rest args
      end
  end.

(** [len(args) == 1 && isError(args[0])]. *)
Definition onlyArgumentFailed (args : list Object) : bool :=
  (length args =? 1)%nat && isError (nth 0 args nil).

Definition evalFunctionCall (tok : token.Token) (Function_ : ast.Expression)
    (Arguments : list ast.Expression) (env : EnvPtr) : M Object :=
  let* function := ev (ast.ExprNode Function_) env in
  if isError function then ret function
  else
    let* args := evalExpressions Arguments env in
    if onlyArgumentFailed args then ret (nth 0 args nil)
    else
      match function with
      | Builtin _ fn => callBuiltin fn args
      | Function _ Parameters Body Env =>
          let* fnEnv := NewEnclosedEnvironment Env in
          bindParameters fnEnv 0 Parameters args ;;
          let* result := ev (ast.BlockNode Body) fnEnv in
          if isError result then ret result
          else
            match result with
            | ReturnValue _ value => ret value
            | _ => ret NULL
            end
      | _ =>
          let* t := typeOf function in
          newError tok (Sprintf ["not a function: "; t])
      end.

Definition evalAssignmentStatement (Name : ast.Identifier)
    (Value : ast.Expression) (env : EnvPtr) : M Object :=
  let* val := ev (ast.ExprNode Value) env in
  Set_ env (ast.IdentValue Name) val ;;
  ret val.

(** The [for] loop of [evalWhileLoop]; [result] is the Go variable, and
    [n] bounds the number of iterations. *)
Fixpoint evalWhileFrom (n : nat) (Condition : ast.Expression)
    (Body : ast.BlockStatement) (env : EnvPtr) (result : Object)
    : M Object :=
  match n with
  | O => diverge
  | S n' =>
      let* condition := ev (ast.ExprNode Condition) env in
      if negb (isTruthy condition) then ret result
      else
        let* result := ev (ast.BlockNode Body) env in
        if isReturn result then ret result
        else evalWhileFrom n' Condition Body env result
  end.

Definition evalWhileLoop (n : nat) (Condition : ast.Expression)
    (Body : ast.BlockStatement) (env : EnvPtr) : M Object :=
  evalWhileFrom n Condition Body env NULL.

Definition evalWrangleStatement (ModuleName : ast.Identifier)
    (env : EnvPtr) : M Object :=
  let moduleName := ast.IdentValue ModuleName in
  let* mod_ := loadModule moduleName in
  Set_ env moduleName mod_ ;;
  ret mod_.

Definition evalMemberAccessExpression (Object_ : ast.Expression)
    (Member : ast.Identifier) (env : EnvPtr) : M Object :=
  let* obj := ev (ast.ExprNode Object_) env in
  match obj with
  | Module_ _ _ Members =>
      match Members !! ast.IdentValue Member with
      | Some member => ret member
      | None => ret NULL
      end
  | _ => ret NULL
  end.

End Recursive.

(** [Eval]: the type switch over the node kinds.  Each unit of fuel pays
    for one level of the recursion, and bounds the iterations of a loop. *)
Fixpoint Eval (fuel : nat) (node : ast.Node) (env : EnvPtr) : M Object :=
  match fuel with
  | O => diverge
  | S fuel' =>
      let ev := Eval fuel' in
      match node with
      | ast.ProgramNode n => evalProgram ev n env
      | ast.ExprNode (ast.IntegerLiteral _ Value) =>
          new (fun p => Integer p Value)
      | ast.ExprNode (ast.BooleanLiteral _ Value) =>
          ret (nativeBoolToBooleanObject Value)
      | ast.ExprNode (ast.StringLiteral _ Value) =>
          new (fun p => String p Value)
      | ast.ExprNode (ast.Ident n) => evalIdentifier n env
      | ast.ExprNode (ast.PrefixExpression tok Operator Right) =>
          let* right := ev (ast.ExprNode Right) env in
          if isError right then ret right
          else evalPrefixExpression tok Operator right
      | ast.ExprNode (ast.InfixExpression tok Left Operator Right) =>
          let* left := ev (ast.ExprNode Left) env in
          if isError left then ret left
          else
            let* right := ev (ast.ExprNode Right) env in
            if isError right then ret right
            else evalInfixExpression tok Operator left right
      | ast.StmtNode (ast.VariableDeclaration _ Name Value) =>
          let* val := ev (ast.ExprNode Value) env in
          Set_ env (ast.IdentValue Name) val ;;
          ret val
      | ast.StmtNode (ast.AssignmentStatement _ Name Value) =>
          evalAssignmentStatement ev Name Value env
      | ast.BlockNode n => evalBlockStatement ev n env
      | ast.StmtNode (ast.IfStatement _ Condition Consequence Alternative) =>
          evalIfStatement ev Condition Consequence Alternative env
      | ast.StmtNode (ast.WhileLoop _ Condition Body) =>
          evalWhileLoop ev fuel' Condition Body env
      | ast.StmtNode (ast.FunctionDeclaration _ Name Parameters Body) =>
          evalFunctionDeclaration Name Parameters Body env
      | ast.StmtNode (ast.ReturnStatement _ ReturnValue_) =>
          evalReturnStatement ev ReturnValue_ env
      | ast.ExprNode (ast.FunctionCall tok Function_ Arguments) =>
          evalFunctionCall ev tok Function_ Arguments env
      | ast.StmtNode (ast.WrangleStatement _ ModuleName) =>
          evalWrangleStatement ModuleName env
      | ast.ExprNode (ast.MemberAccessExpression _ Object_ Member) =>
          evalMemberAccessExpression ev Object_ Member env
      | ast.StmtNode (ast.ExpressionStatement _ Expression_) =>
          ev (ast.ExprNode Expression_) env
      end
  end.

End evaluator.

(* ================================================================== *)
(** ** The entry point ([main.go]) in interpreter mode

    Reading the file, scanning and parsing are outside this development:
    [main] takes the parser's error list and the parsed program. *)

Module main.
Import object machine evaluator.
Open Scope string_scope.

(** How the process ends: [os.Exit(code)] or falling off the end of
    [main] (status 0), a run-time panic, or no end within the fuel. *)
Inductive Exit :=
  | Exited (status : Z) (out : string)
  | Crashed (r : PanicReason) (out : string)
  | Running.

Fixpoint printParserErrors (errors : list string) : M unit :=
  match errors with
  | [] => ret tt
  | msg :: rest => Print (Sprintf ["  "; msg; newline]) ;; printParserErrors rest
  end.

(** The body of [main] after parsing; the result is the exit status. *)
Definition interpret (fuel : nat) (errors : list string)
    (program : ast.Program) : M Z :=
  if (0 <? length errors)%nat then
    Println "Parser errors:" ;;
    printParserErrors errors ;;
    ret 1%Z
  else
    let* env := NewEnvironment in
    let* _ := Eval fuel (ast.ProgramNode program) env in
    let* r := Get env "ChurchOfBeef" in
    if snd r then
      match fst r with
      | Function _ _ Body Env =>
          let* entryEnv := NewEnclosedEnvironment Env in
          let* _ := Eval fuel (ast.BlockNode Body) entryEnv in
          ret 0%Z
      | _ =>
          Println "Error: ChurchOfBeef is not a function" ;;
          ret 1%Z
      end
    else
      Println "Error: no ChurchOfBeef() entry point function found" ;;
      ret 1%Z.

Definition main (fuel : nat) (errors : list string) (program : ast.Program)
    (input : list string) : Exit :=
  match interpret fuel errors program (initial input) with
  | Done status st => Exited status (stdout st)
  | Panic r st => Crashed r (stdout st)
  | OutOfFuel => Running
  end.

End main.

(* ================================================================== *)
(** ** Notions the statements are phrased with *)

Module notions.
Import object machine evaluator.
Open Scope string_scope.

(** The objects that conditionals and [!] take for false: the two
    singletons [FALSE] and [NULL], by identity. *)
Definition falsy (x : Object) : bool := same x FALSE || same x NULL.

(** The error object [newError] builds in state [st]. *)
Definition errorAt (tok : token.Token) (st : State) (message : string)
    : Object :=
  Error (next st) message (token.Line tok) (token.Column tok) "".

(** *** Fuel

    [refines m m']: wherever [m] ends (with a value or a panic), [m']
    ends the same way.  More fuel refines less fuel. *)
Definition refines {A} (m m' : M A) : Prop :=
  forall st, m st <> OutOfFuel -> m' st = m st.

Definition evRefines (ev ev' : ast.Node -> EnvPtr -> M Object) : Prop :=
  forall node env, refines (ev node env) (ev' node env).

(** *** What environments hold

    [clean v]: [v] is not a return signal, and if it is a module its
    members are neither return signals nor modules.  [storeClean st]: all
    values bound in the environments of [st] are clean.  [keeps m Q]:
    from a clean store, [m] ends in a clean store with a value that
    satisfies [Q]. *)
Definition simple (v : Object) : bool :=
  match v with
  | ReturnValue _ _ | Module_ _ _ _ => false
  | _ => true
  end.

Definition clean (v : Object) : Prop :=
  match v with
  | ReturnValue _ _ => False
  | Module_ _ _ members => map_Forall (fun _ m => simple m = true) members
  | _ => True
  end.

Definition unwrapsClean (r : Object) : Prop :=
  match r with
  | ReturnValue _ v => clean v
  | _ => True
  end.

Definition storeClean (st : State) : Prop :=
  forall e env name v,
    envs st !! e = Some env -> store env !! name = Some v -> clean v.

Definition keeps {A} (m : M A) (Q : A -> Prop) : Prop :=
  forall st a st', storeClean st -> m st = Done a st' -> storeClean st' /\ Q a.

Definition post (node : ast.Node) (r : Object) : Prop :=
  unwrapsClean r /\ match node with ast.ExprNode _ => clean r | _ => True end.

(** *** Native 64-bit integers

    What the Go language specification says of [int64], independently of
    the evaluator: sums, differences and products are computed on the
    64-bit patterns and read back in two's complement; the quotient is
    truncated towards zero, with the one overflowing quotient
    [MinInt64 / -1] equal to [MinInt64]; the remainder has the sign of
    the dividend. *)
Module int64.

Definition MinInt64 : Z := - 2^63.
Definition MaxInt64 : Z := 2^63 - 1.

Definition inRange (z : Z) : Prop := MinInt64 <= z <= MaxInt64.

(** The bit pattern of an integer, read as an unsigned number. *)
Definition bits (z : Z) : Z := z mod 2^64.

(** A 64-bit pattern read in two's complement. *)
Definition signed (u : Z) : Z := if (u <? 2^63)%Z then u else u - 2^64.

Definition add (a b : Z) : Z := signed ((bits a + bits b) mod 2^64).
Definition sub (a b : Z) : Z := signed ((bits a - bits b) mod 2^64).
Definition mul (a b : Z) : Z := signed ((bits a * bits b) mod 2^64).

Definition quo (a b : Z) : Z :=
  if (a =? MinInt64)%Z && (b =? -1)%Z then MinInt64
  else Z.sgn a * Z.sgn b * (Z.abs a / Z.abs b).

Definition rem (a b : Z) : Z := Z.sgn a * (Z.abs a mod Z.abs b).

End int64.

(** The value of [a op b] in native arithmetic: an integer for the five
    arithmetic operators, a boolean for the six comparisons. *)
Inductive Native :=
  | NativeInt (z : Z)
  | NativeBool (b : bool).

Definition native (op : string) (a b : Z) : option Native :=
  if op =? "+" then Some (NativeInt (int64.add a b))
  else if op =? "-" then Some (NativeInt (int64.sub a b))
  else if op =? "*" then Some (NativeInt (int64.mul a b))
  else if op =? "/" then Some (NativeInt (int64.quo a b))
  else if op =? "%" then Some (NativeInt (int64.rem a b))
  else if op =? "<" then Some (NativeBool (bool_decide (a < b)%Z))
  else if op =? ">" then Some (NativeBool (bool_decide (b < a)%Z))
  else if op =? "<=" then Some (NativeBool (bool_decide (a <= b)%Z))
  else if op =? ">=" then Some (NativeBool (bool_decide (b <= a)%Z))
  else if op =? "==" then Some (NativeBool (bool_decide (a = b)))
  else if op =? "!=" then Some (NativeBool (bool_decide (a <> b)))
  else None.

Definition integerOperators : list string :=
  ["+"; "-"; "*"; "/"; "%"; "<"; ">"; "<="; ">="; "=="; "!="].

(** The outcome that delivers a native value from state [st]: a fresh
    Integer object, or one of the Boolean singletons. *)
Definition delivers (r : Native) (st : State) : Outcome Object :=
  match r with
  | NativeInt z => Done (Integer (next st) z) (allocate st)
  | NativeBool c => Done (nativeBoolToBooleanObject c) st
  end.

(** *** Runs of a while loop

    [LoopRun ev c b env st vs e st']: started in state [st], the loop
    with condition [c] and body [b] goes through the body evaluations
    whose values are [vs], none of them a return signal, and then ends
    in state [st'], either because the condition evaluates to a value
    that is not truthy or because one more body evaluation yields the
    return signal [r]. *)
Inductive LoopEnd :=
  | ConditionFalse
  | Returned (r : Object).

Section Loop.

Variable ev : ast.Node -> EnvPtr -> M Object.
Variable Condition : ast.Expression.
Variable Body : ast.BlockStatement.
Variable env : EnvPtr.

Inductive LoopRun : State -> list Object -> LoopEnd -> State -> Prop :=
  | loop_exit st condition st1 :
      ev (ast.ExprNode Condition) env st = Done condition st1 ->
      isTruthy condition = false ->
      LoopRun st [] ConditionFalse st1
  | loop_return st condition st1 r st2 :
      ev (ast.ExprNode Condition) env st = Done condition st1 ->
      isTruthy condition = true ->
      ev (ast.BlockNode Body) env st1 = Done r st2 ->
      isReturn r = true ->
      LoopRun st [] (Returned r) st2
  | loop_iter st condition st1 r st2 vs e st3 :
      ev (ast.ExprNode Condition) env st = Done condition st1 ->
      isTruthy condition = true ->
      ev (ast.BlockNode Body) env st1 = Done r st2 ->
      isReturn r = false ->
      LoopRun st2 vs e st3 ->
      LoopRun st (r :: vs) e st3.

End Loop.

(** The value of a loop that made the run [vs], [e], when the Go
    variable [result] held [start] on entry: the return signal itself,
    or else the last body value, or else [start]. *)
Definition loopValue (e : LoopEnd) (vs : list Object) (start : Object)
    : Object :=
  match e with
  | Returned r => r
  | ConditionFalse => List.last vs start
  end.

(** *** Sample inputs *)

Definition opTok : token.Token := token.mkToken "OP" "op" 10 13.
Definition st0 : State := initial [].

Definition ident (name : string) : ast.Identifier :=
  ast.mkIdentifier (token.mkToken "IDENT" name 1 1) name.
Definition var (name : string) : ast.Expression := ast.Ident (ident name).
Definition int (n : Z) : ast.Expression := ast.IntegerLiteral opTok n.
Definition block (ss : list ast.Statement) : ast.BlockStatement :=
  ast.Block opTok ss.
Definition serve (e : ast.Expression) : ast.Statement :=
  ast.ReturnStatement opTok e.
Definition call (f : ast.Expression) (args : list ast.Expression)
    : ast.Expression :=
  ast.FunctionCall opTok f args.

(** [feast while n < 2: n = n + 1 beef] and [feast while true: serve 7
    beef], with a state whose only environment binds [n] to 0. *)
Definition countToTwo : ast.Statement :=
  ast.WhileLoop opTok (ast.InfixExpression opTok (var "n") "<" (int 2))
    (block [ast.AssignmentStatement opTok (ident "n")
              (ast.InfixExpression opTok (var "n") "+" (int 1))]).
Definition serveSeven : ast.Statement :=
  ast.WhileLoop opTok (ast.BooleanLiteral opTok true) (block [serve (int 7)]).
Definition neverRuns (body : ast.BlockStatement) : ast.Statement :=
  ast.WhileLoop opTok (ast.BooleanLiteral opTok false) body.
Definition stCount : State :=
  mkState 5 [mkEnvironment {[ "n" := Integer 4 0 ]} None] "" [].

(** [5 + true], at line 10, column 13. *)
Definition typeError : ast.Expression :=
  ast.InfixExpression opTok (int 5) "+" (ast.BooleanLiteral opTok true).
Definition typeErrorMessage : string := "type mismatch: INTEGER + BOOLEAN".

(** A state with one empty environment. *)
Definition stEmpty : State := mkState 4 [mkEnvironment ∅ None] "" [].

Definition exprStmt (e : ast.Expression) : ast.Statement :=
  ast.ExpressionStatement opTok e.

(** [if 5 + true: 1 beef]. *)
Definition ifOnError : ast.Statement :=
  ast.IfStatement opTok typeError (block [exprStmt (int 1)]) None.

(** [(5 + true).x]. *)
Definition memberOfError : ast.Expression :=
  ast.MemberAccessExpression opTok typeError (ident "x").

(** [feast while 5 + true: serve 1 beef]. *)
Definition whileOnError : ast.Statement :=
  ast.WhileLoop opTok typeError (block [serve (int 1)]).

(** [feast while n < 2: n = n + 1  5 + true beef]. *)
Definition whileBodyFails : ast.Statement :=
  ast.WhileLoop opTok (ast.InfixExpression opTok (var "n") "<" (int 2))
    (block [ast.AssignmentStatement opTok (ident "n")
              (ast.InfixExpression opTok (var "n") "+" (int 1));
            exprStmt typeError]).

(** [praise second(a, b): serve b beef], a state whose only environment
    binds [second] to it, and the call [second(5 + true, 7)]. *)
Definition secondOfTwo : Object :=
  Function 4 [ident "a"; ident "b"] (block [serve (var "b")]) 0.
Definition stSecond : State :=
  mkState 5 [mkEnvironment {[ "second" := secondOfTwo ]} None] "" [].
Definition callSecond : ast.Expression :=
  call (var "second") [typeError; int 7].

(** [prep x = 5 + true] and [x = 5 + true]. *)
Definition declareError : ast.Statement :=
  ast.VariableDeclaration opTok (ident "x") typeError.
Definition assignError : ast.Statement :=
  ast.AssignmentStatement opTok (ident "x") typeError.

(** [io.preach(e)]. *)
Definition preachStmt (e : ast.Expression) : ast.Statement :=
  exprStmt (call (ast.MemberAccessExpression opTok (var "io")
                    (ident "preach")) [e]).
Definition wrangleIO : ast.Statement :=
  ast.WrangleStatement opTok (ident "io").

(** A program whose entry point fails on its first statement:
    [wrangle io  praise ChurchOfBeef(): 5 + true  io.preach(7) beef]. *)
Definition entryFails : ast.Program :=
  ast.mkProgram
    [wrangleIO;
     ast.FunctionDeclaration opTok (ident "ChurchOfBeef") []
       (block [exprStmt typeError; preachStmt (int 7)])].

(** A program that fails at top level after declaring its entry point:
    [wrangle io  praise ChurchOfBeef(): io.preach(7) beef  5 + true]. *)
Definition topLevelFails : ast.Program :=
  ast.mkProgram
    [wrangleIO;
     ast.FunctionDeclaration opTok (ident "ChurchOfBeef") []
       (block [preachStmt (int 7)]);
     exprStmt typeError].

(** [praise first(a, b): serve a beef], and a state whose only
    environment binds [first] to it. *)
Definition firstOfTwo : Object :=
  Function 4 [ident "a"; ident "b"] (block [serve (var "a")]) 0.
Definition stFirst : State :=
  mkState 5 [mkEnvironment {[ "first" := firstOfTwo ]} None] "" [].

End notions.

(* ================================================================== *)
(** ** Further notions, for the rest of the evaluator *)

Module further.
Import object machine evaluator notions.
Open Scope string_scope.

(** *** Native negation

    Two's-complement negation of a 64-bit pattern: the pattern
    subtracted from [2^64]. *)
Definition neg64 (a : Z) : Z :=
  int64.signed ((2^64 - int64.bits a) mod 2^64).

(** *** Control signals *)

(** What makes a block stop: an Error or a return signal. *)
Definition stops (r : Object) : bool := isError r || isReturn r.

(** What [evalProgram] and [evalFunctionCall] make of a return signal:
    its inner value. *)
Definition unwrapReturn (r : Object) : Object :=
  match r with
  | ReturnValue _ value => value
  | _ => r
  end.


(** *** Console *)

(** What [io.preach] writes for a list of arguments: the rendering of
    each followed by a newline; nothing when one of them is nil. *)
Fixpoint preached (args : list Object) : option string :=
  match args with
  | [] => Some ""
  | arg :: rest =>
      match Inspect arg, preached rest with
      | Some s, Some out => Some (s +:+ newline +:+ out)
      | _, _ => None
      end
  end.

(** The state after writing [out] to standard output. *)
Definition written (st : State) (out : string) : State :=
  mkState (next st) (envs st) (stdout st +:+ out) (stdin st).


(** *** Names *)

(** Whether [name] is visible from environment [e]. *)
Definition visible (st : State) (e : EnvPtr) (name : string) : bool :=
  match resolve (length (envs st)) (envs st) e name with
  | Some _ => true
  | None => false
  end.

(** *** The process *)

(** What [main] prints for a list of parser errors, after the heading. *)
Fixpoint parserErrorLines (errors : list string) : string :=
  match errors with
  | [] => ""
  | msg :: rest => "  " +:+ msg +:+ newline +:+ parserErrorLines rest
  end.

(** The state in which [main] evaluates the program: one empty
    top-level environment. *)
Definition startState (input : list string) : State :=
  mkState first_free [mkEnvironment ∅ None] "" input.

(** How the process ends once the entry point's body has run. *)
Definition exitAfter (o : Outcome Object) : main.Exit :=
  match o with
  | Done _ st => main.Exited 0 (stdout st)
  | Panic r st => main.Crashed r (stdout st)
  | OutOfFuel => main.Running
  end.

(** *** How a state may change

    [extends st st']: [st'] has everything [st] had.  No object address
    is handed out twice, what was written stays written, input is only
    consumed from the front, no environment disappears or changes its
    parent, and a name once bound in an environment stays bound there. *)
Definition extends (st st' : State) : Prop :=
  (next st <= next st')%positive
  /\ (exists out, stdout st' = stdout st +:+ out)
  /\ (exists k, stdin st' = drop k (stdin st))
  /\ (length (envs st) <= length (envs st'))%nat
  /\ (forall e env,
        envs st !! e = Some env ->
        exists env',
          envs st' !! e = Some env'
          /\ outer env' = outer env
          /\ forall name,
               is_Some (store env !! name) -> is_Some (store env' !! name)).

(** [orderly m]: however [m] ends, the state it ends in extends the one
    it started from. *)
Definition orderly {A} (m : M A) : Prop :=
  forall st,
    match m st with
    | Done _ st' => extends st st'
    | Panic _ st' => extends st st'
    | OutOfFuel => True
    end.

(** *** Values the evaluator can handle without a run-time failure

    [sound v]: [v] is not nil and not a return signal, and if it is a
    module its members are plain values (not nil, no return signals, no
    modules).  [storeSound st]: every bound value is sound.  The panics
    that remain possible in a sound store are [benign]: the argument
    index out of range of a call with too few arguments, and the integer
    division by zero. *)
Definition plain (v : Object) : bool :=
  match v with
  | nil | ReturnValue _ _ | Module_ _ _ _ => false
  | _ => true
  end.

Definition sound (v : Object) : Prop :=
  match v with
  | nil => False
  | ReturnValue _ _ => False
  | Module_ _ _ members => map_Forall (fun _ m => plain m = true) members
  | _ => True
  end.

Definition soundResult (r : Object) : Prop :=
  match r with
  | ReturnValue _ v => sound v
  | _ => True
  end.

Definition storeSound (st : State) : Prop :=
  forall e env name v,
    envs st !! e = Some env -> store env !! name = Some v -> sound v.

Definition benign (r : PanicReason) : Prop :=
  match r with
  | IndexOutOfRange _ _ | DivideByZero => True
  | NilDereference | InterfaceConversion => False
  end.

(** [safely n m Q]: from a sound store with at least [n] environments,
    [m] either ends in a sound store with no fewer environments and a
    value satisfying [Q], or panics benignly, or runs out of fuel. *)
Definition safely (n : nat) {A} (m : M A) (Q : A -> Prop) : Prop :=
  forall st,
    storeSound st -> (n <= length (envs st))%nat ->
    match m st with
    | Done a st' =>
        storeSound st' /\ (length (envs st) <= length (envs st'))%nat /\ Q a
    | Panic r _ => benign r
    | OutOfFuel => True
    end.

Definition safePost (node : ast.Node) (r : Object) : Prop :=
  soundResult r
  /\ match node with ast.ExprNode _ => sound r | _ => True end.

End further.

(* ================================================================== *)
(** * Properties *)

Module properties.
Import object machine evaluator notions.
Open Scope string_scope.

(** ** Fuel: an evaluation that ends keeps its outcome with more fuel *)

Lemma refines_refl {A} (m : M A) : refines m m.
Proof. intros st _. reflexivity. Qed.

Lemma refines_bind {A B} (m m' : M A) (k k' : A -> M B) :
  refines m m' -> (forall a, refines (k a) (k' a)) ->
  refines (bind m k) (bind m' k').
Proof.
  intros Hm Hk st H. unfold bind in *.
  destruct (m st) as [a s | r s |] eqn:E.
  - rewrite (Hm st) by (rewrite E; discriminate). rewrite E.
    apply Hk, H.
  - rewrite (Hm st) by (rewrite E; discriminate). rewrite E. reflexivity.
  - contradiction.
Qed.

Ltac refines_auto Hev :=
  repeat first
    [ apply refines_refl
    | apply Hev
    | apply refines_bind; [| intros ?]
    | match goal with
      | |- refines (if ?b then _ else _) (if ?b then _ else _) => destruct b
      | |- refines (match ?x with _ => _ end) (match ?x with _ => _ end) =>
          destruct x
      end ].

Section Refinement.

Variables ev ev' : ast.Node -> EnvPtr -> M Object.
Hypothesis Hev : evRefines ev ev'.

Lemma evalProgramFrom_refines statements env result :
  refines (evalProgramFrom ev statements env result)
          (evalProgramFrom ev' statements env result).
Proof.
  revert result. induction statements as [| s rest IH]; intros result; simpl.
  - apply refines_refl.
  - apply refines_bind; [apply Hev |]. intros r.
    destruct (isError r); [apply refines_refl |].
    destruct r; first [apply IH | apply refines_refl].
Qed.

Lemma evalBlockFrom_refines statements env result :
  refines (evalBlockFrom ev statements env result)
          (evalBlockFrom ev' statements env result).
Proof.
  revert result. induction statements as [| s rest IH]; intros result; simpl.
  - apply refines_refl.
  - apply refines_bind; [apply Hev |]. intros r.
    destruct (isError r); [apply refines_refl |].
    destruct (isReturn r); [apply refines_refl | apply IH].
Qed.

Lemma evalExpressionsFrom_refines exps env acc :
  refines (evalExpressionsFrom ev exps env acc)
          (evalExpressionsFrom ev' exps env acc).
Proof.
  revert acc. induction exps as [| e rest IH]; intros acc; simpl.
  - apply refines_refl.
  - apply refines_bind; [apply Hev |]. intros r. apply IH.
Qed.

Lemma evalIfStatement_refines c cons alt env :
  refines (evalIfStatement ev c cons alt env)
          (evalIfStatement ev' c cons alt env).
Proof. unfold evalIfStatement. refines_auto Hev. Qed.

Lemma evalFunctionCall_refines tok f args env :
  refines (evalFunctionCall ev tok f args env)
          (evalFunctionCall ev' tok f args env).
Proof.
  unfold evalFunctionCall, evalExpressions.
  apply refines_bind; [apply Hev |]. intros fn.
  destruct (isError fn); [apply refines_refl |].
  apply refines_bind; [apply evalExpressionsFrom_refines |]. intros vs.
  refines_auto Hev.
Qed.

Lemma evalWhileFrom_refines n n' c b env :
  (n <= n')%nat ->
  forall result,
    refines (evalWhileFrom ev n c b env result)
            (evalWhileFrom ev' n' c b env result).
Proof.
  revert n'. induction n as [| n IH]; intros n' Hn result.
  - intros st H. exfalso. apply H. reflexivity.
  - destruct n' as [| n']; [lia |]. simpl.
    apply refines_bind; [apply Hev |]. intros cond.
    destruct (negb (isTruthy cond)); [apply refines_refl |].
    apply refines_bind; [apply Hev |]. intros r.
    destruct (isReturn r); [apply refines_refl |].
    apply IH. lia.
Qed.

End Refinement.

Lemma Eval_refines fuel :
  forall fuel', (fuel <= fuel')%nat -> evRefines (Eval fuel) (Eval fuel').
Proof.
  induction fuel as [| fuel IH]; intros fuel' Hle node env.
  - intros st H. exfalso. apply H. reflexivity.
  - destruct fuel' as [| fuel']; [lia |].
    assert (Hev : evRefines (Eval fuel) (Eval fuel')) by (apply IH; lia).
    destruct node as [p | e | s | b]; simpl.
    + apply evalProgramFrom_refines, Hev.
    + destruct e; simpl;
        first [ apply refines_refl
              | apply evalFunctionCall_refines, Hev
              | unfold evalMemberAccessExpression; refines_auto Hev ].
    + destruct s; simpl;
        first [ apply evalIfStatement_refines, Hev
              | apply evalWhileFrom_refines; [exact Hev | lia]
              | unfold evalAssignmentStatement, evalReturnStatement;
                refines_auto Hev ].
    + apply evalBlockFrom_refines, Hev.
Qed.

(** What [Eval] returns with some fuel, it returns with any more. *)
Lemma Eval_more_fuel fuel extra node env st :
  Eval fuel node env st <> OutOfFuel ->
  Eval (fuel + extra) node env st = Eval fuel node env st.
Proof. intros H. apply (Eval_refines fuel (fuel + extra)); [lia | exact H]. Qed.

Lemma interpret_refines fuel fuel' errors program :
  (fuel <= fuel')%nat ->
  refines (main.interpret fuel errors program)
          (main.interpret fuel' errors program).
Proof.
  intros Hle. pose proof (Eval_refines fuel fuel' Hle) as Hev.
  unfold main.interpret. refines_auto Hev.
Qed.

Lemma main_more_fuel fuel extra errors program input :
  main.main fuel errors program input <> main.Running ->
  main.main (fuel + extra) errors program input
  = main.main fuel errors program input.
Proof.
  unfold main.main. intros H.
  rewrite (interpret_refines fuel (fuel + extra) errors program); [easy | lia |].
  intros E. rewrite E in H. contradiction.
Qed.

(** ** Truthiness and the bang operator *)

Lemma nativeBool_cases (b : bool) :
  nativeBoolToBooleanObject b = TRUE \/ nativeBoolToBooleanObject b = FALSE.
Proof. destruct b; [left | right]; reflexivity. Qed.

Lemma same_sym (a b : Object) : same a b = same b a.
Proof. unfold same. apply bool_decide_ext. split; congruence. Qed.

Lemma isTruthy_falsy (x : Object) : isTruthy x = negb (falsy x).
Proof.
  unfold isTruthy, falsy.
  destruct (same x NULL), (same x FALSE), (same x TRUE); reflexivity.
Qed.

Lemma bang_falsy (x : Object) :
  evalBangOperator x = nativeBoolToBooleanObject (falsy x).
Proof.
  unfold evalBangOperator, falsy.
  destruct (same x TRUE) eqn:Ht; destruct (same x FALSE) eqn:Hf;
    destruct (same x NULL) eqn:Hn; try reflexivity;
    unfold same in *;
    repeat match goal with
           | H : bool_decide _ = true |- _ => apply bool_decide_eq_true in H
           end;
    simpl in *; congruence.
Qed.

Lemma isTruthy_nativeBool (b : bool) :
  isTruthy (nativeBoolToBooleanObject b) = b.
Proof. destruct b; reflexivity. Qed.

Lemma falsy_iff (x : Object) :
  falsy x = true <-> same x FALSE = true \/ same x NULL = true.
Proof. unfold falsy. rewrite orb_true_iff. reflexivity. Qed.

Lemma bang_true_iff (x : Object) :
  evalBangOperator x = TRUE <-> falsy x = true.
Proof.
  rewrite bang_falsy. destruct (falsy x); simpl; split; intros H;
    try reflexivity; discriminate H.
Qed.

Lemma isTruthy_false_iff (x : Object) :
  isTruthy x = false <-> falsy x = true.
Proof. rewrite isTruthy_falsy. destruct (falsy x); simpl; intuition. Qed.

Lemma isTruthy_bang (x : Object) :
  isTruthy (evalBangOperator x) = negb (isTruthy x).
Proof.
  rewrite bang_falsy, isTruthy_nativeBool, isTruthy_falsy.
  symmetry. apply negb_involutive.
Qed.

(** C9. For every runtime value [x] (nil included), prefix [!] yields
    one of the two Boolean singletons; it yields [TRUE] exactly when [x]
    is the [FALSE] or the [NULL] singleton, which are also exactly the
    values that are not truthy, so that the integer 0 and the empty
    string count as true wherever they are allocated; and the truthiness
    of [!!x] is the truthiness of [x]. *)
Theorem bang_involutive_on_truthiness :
  forall x : Object,
    (evalBangOperator x = TRUE \/ evalBangOperator x = FALSE)
    /\ (evalBangOperator x = TRUE <-> same x FALSE = true \/ same x NULL = true)
    /\ (isTruthy x = false <-> same x FALSE = true \/ same x NULL = true)
    /\ (forall tok st,
          evalPrefixExpression tok "!" x st = Done (evalBangOperator x) st)
    /\ (forall p, evalBangOperator (Integer p 0) = FALSE
                  /\ isTruthy (Integer p 0) = true)
    /\ (forall p, evalBangOperator (String p "") = FALSE
                  /\ isTruthy (String p "") = true)
    /\ isTruthy (evalBangOperator x) = negb (isTruthy x)
    /\ isTruthy (evalBangOperator (evalBangOperator x)) = isTruthy x.
Proof.
  intro x. split_and!.
  - rewrite bang_falsy. apply nativeBool_cases.
  - rewrite bang_true_iff. apply falsy_iff.
  - rewrite isTruthy_false_iff. apply falsy_iff.
  - reflexivity.
  - intro p. split; reflexivity.
  - intro p. split; reflexivity.
  - apply isTruthy_bang.
  - rewrite !isTruthy_bang. apply negb_involutive.
Qed.

(** ** Infix expressions *)

Lemma eqb_false_of_neq (a b : string) : a <> b -> (a =? b) = false.
Proof. apply String.eqb_neq. Qed.

Ltac unfold_infix :=
  unfold evalInfixExpression, evalStringInfixExpression,
    evalIntegerInfixExpression, unknownOperator, bothOfType, newError,
    typeOf, new, bind, ret, errorAt; simpl.

(** C10. On two String operands [==] and [!=] compare the contents,
    whatever the addresses of the two objects (so also for distinct
    allocations of equal text), and every operator other than [+], [==]
    and [!=] yields the error [unknown operator: STRING op STRING]. *)
Theorem string_comparison_by_value :
  forall tok p q (a b : string) st,
    (a = b ->
       evalInfixExpression tok "==" (String p a) (String q b) st
         = Done TRUE st
       /\ evalInfixExpression tok "!=" (String p a) (String q b) st
         = Done FALSE st)
    /\ (a <> b ->
       evalInfixExpression tok "==" (String p a) (String q b) st
         = Done FALSE st
       /\ evalInfixExpression tok "!=" (String p a) (String q b) st
         = Done TRUE st)
    /\ (forall op, op <> "+" -> op <> "==" -> op <> "!=" ->
       evalInfixExpression tok op (String p a) (String q b) st
         = Done (errorAt tok st
                   ("unknown operator: STRING " +:+ op +:+ " STRING"))
                (allocate st)).
Proof.
  intros tok p q a b st. split_and!.
  - intros ->. unfold_infix. rewrite String.eqb_refl. split; reflexivity.
  - intros Hne. unfold_infix. rewrite (eqb_false_of_neq _ _ Hne).
    split; reflexivity.
  - intros op Hplus Heq Hne. unfold_infix.
    rewrite (eqb_false_of_neq _ _ Hplus), (eqb_false_of_neq _ _ Heq),
      (eqb_false_of_neq _ _ Hne).
    reflexivity.
Qed.

Lemma string_comparison_by_value_witness :
  evalInfixExpression opTok "==" (String 10 "beef") (String 11 "beef") st0
    = Done TRUE st0
  /\ evalInfixExpression opTok "==" (String 10 "beef") (String 11 "pork") st0
    = Done FALSE st0
  /\ evalInfixExpression opTok "<" (String 10 "beef") (String 11 "pork") st0
    = Done (errorAt opTok st0 "unknown operator: STRING < STRING")
           (allocate st0).
Proof.
  split_and!.
  - apply (string_comparison_by_value opTok 10 11 "beef" "beef" st0).
    reflexivity.
  - apply (string_comparison_by_value opTok 10 11 "beef" "pork" st0).
    discriminate.
  - apply (string_comparison_by_value opTok 10 11 "beef" "pork" st0);
      discriminate.
Defined.

Lemma type_mismatch_error tok op left right lt rt st :
  Type_ left = Some lt -> Type_ right = Some rt -> lt <> rt ->
  op <> "==" -> op <> "!=" ->
  evalInfixExpression tok op left right st
    = Done (errorAt tok st
              ("type mismatch: " +:+ lt +:+ " " +:+ op +:+ " " +:+ rt))
           (allocate st).
Proof.
  intros Hl Hr Hne Heq Hneq.
  destruct left; simpl in Hl; try discriminate Hl;
    injection Hl as <-;
    destruct right; simpl in Hr; try discriminate Hr;
    injection Hr as <-;
    try (exfalso; apply Hne; reflexivity);
    unfold_infix;
    rewrite (eqb_false_of_neq _ _ Heq), (eqb_false_of_neq _ _ Hneq);
    reflexivity.
Qed.

Lemma identity_fallback tok left right lt rt st :
  Type_ left = Some lt -> Type_ right = Some rt ->
  ~ (lt = "INTEGER" /\ rt = "INTEGER") ->
  ~ (lt = "STRING" /\ rt = "STRING") ->
  evalInfixExpression tok "==" left right st
    = Done (nativeBoolToBooleanObject (same left right)) st
  /\ evalInfixExpression tok "!=" left right st
    = Done (nativeBoolToBooleanObject (negb (same left right))) st.
Proof.
  intros Hl Hr Hint Hstr.
  destruct left; simpl in Hl; try discriminate Hl;
    injection Hl as <-;
    destruct right; simpl in Hr; try discriminate Hr;
    injection Hr as <-;
    try (exfalso; apply Hint; split; reflexivity);
    try (exfalso; apply Hstr; split; reflexivity);
    split; reflexivity.
Qed.

(** C5. Evaluating [5 + true] yields an Error whose message is exactly
    [type mismatch: INTEGER + BOOLEAN]; for operands of different types
    and any operator other than [==] and [!=] the result is the error
    [type mismatch: T1 op T2]; and [==] and [!=] on operands that are not
    both Integer and not both String compare by reference identity and
    yield one of the Boolean singletons, never an Error. *)
Theorem infix_type_mismatch :
  (forall fuel tok t1 t2 env st,
     Eval (S (S fuel))
       (ast.ExprNode
          (ast.InfixExpression tok (ast.IntegerLiteral t1 5) "+"
             (ast.BooleanLiteral t2 true))) env st
     = Done (errorAt tok (allocate st) "type mismatch: INTEGER + BOOLEAN")
            (allocate (allocate st)))
  /\ (forall tok op left right lt rt st,
       Type_ left = Some lt -> Type_ right = Some rt -> lt <> rt ->
       op <> "==" -> op <> "!=" ->
       evalInfixExpression tok op left right st
         = Done (errorAt tok st
                   ("type mismatch: " +:+ lt +:+ " " +:+ op +:+ " " +:+ rt))
                (allocate st))
  /\ (forall tok left right lt rt st,
       Type_ left = Some lt -> Type_ right = Some rt ->
       ~ (lt = "INTEGER" /\ rt = "INTEGER") ->
       ~ (lt = "STRING" /\ rt = "STRING") ->
       (evalInfixExpression tok "==" left right st
          = Done (nativeBoolToBooleanObject (same left right)) st
        /\ evalInfixExpression tok "!=" left right st
          = Done (nativeBoolToBooleanObject (negb (same left right))) st)
       /\ isError (nativeBoolToBooleanObject (same left right)) = false
       /\ isError (nativeBoolToBooleanObject (negb (same left right)))
          = false).
Proof.
  split_and!.
  - reflexivity.
  - apply type_mismatch_error.
  - intros tok left right lt rt st Hl Hr Hint Hstr. split_and!.
    + apply (identity_fallback tok left right lt rt st); assumption.
    + apply (identity_fallback tok left right lt rt st); assumption.
    + destruct (same left right); reflexivity.
    + destruct (same left right); reflexivity.
Qed.

Lemma infix_type_mismatch_witness :
  evalInfixExpression opTok "*" (String 10 "beef") (Integer 11 2) st0
    = Done (errorAt opTok st0 "type mismatch: STRING * INTEGER")
           (allocate st0)
  /\ evalInfixExpression opTok "==" TRUE (Integer 11 1) st0 = Done FALSE st0
  /\ evalInfixExpression opTok "==" NULL NULL st0 = Done TRUE st0
  /\ evalInfixExpression opTok "!=" TRUE FALSE st0 = Done TRUE st0.
Proof.
  destruct infix_type_mismatch as (_ & Hmis & Hid).
  split_and!.
  - apply (Hmis opTok "*" (String 10 "beef") (Integer 11 2)
             "STRING" "INTEGER" st0);
      first [reflexivity | discriminate].
  - apply (Hid opTok TRUE (Integer 11 1) "BOOLEAN" "INTEGER" st0);
      first [reflexivity | intros [H1 H2]; discriminate].
  - apply (Hid opTok NULL NULL "NULL" "NULL" st0);
      first [reflexivity | intros [H1 H2]; discriminate].
  - apply (Hid opTok TRUE FALSE "BOOLEAN" "BOOLEAN" st0);
      first [reflexivity | intros [H1 H2]; discriminate].
Defined.

(** ** Integer arithmetic *)

Lemma wrap64_id z : int64.inRange z -> wrap64 z = z.
Proof.
  unfold int64.inRange, int64.MinInt64, int64.MaxInt64, wrap64. intros H.
  rewrite Z.mod_small; lia.
Qed.

Lemma wrap64_range z : int64.inRange (wrap64 z).
Proof.
  unfold int64.inRange, int64.MinInt64, int64.MaxInt64, wrap64.
  pose proof (Z.mod_pos_bound (z + 2^63) (2^64) ltac:(lia)). lia.
Qed.

Lemma signed_bits z : int64.signed (int64.bits z) = wrap64 z.
Proof.
  unfold int64.signed, int64.bits, wrap64.
  pose proof (Z.div_mod z (2^64) ltac:(lia)) as Hz.
  pose proof (Z.mod_pos_bound z (2^64) ltac:(lia)) as Hb.
  destruct (Z.ltb_spec (z mod 2^64) (2^63)).
  - symmetry.
    replace (z + 2^63) with ((z mod 2^64 + 2^63) + (z / 2^64) * 2^64)
      by lia.
    rewrite Z.mod_add by lia.
    rewrite (Z.mod_small (z mod 2^64 + 2^63)); lia.
  - replace (z + 2^63) with ((z mod 2^64 - 2^63) + (z / 2^64 + 1) * 2^64)
      by lia.
    rewrite Z.mod_add by lia.
    rewrite (Z.mod_small (z mod 2^64 - 2^63)); lia.
Qed.

Lemma wrap64_add a b : wrap64 (a + b) = int64.add a b.
Proof.
  unfold int64.add. rewrite <- signed_bits. unfold int64.bits.
  rewrite <- Z.add_mod by lia. reflexivity.
Qed.

Lemma wrap64_sub a b : wrap64 (a - b) = int64.sub a b.
Proof.
  unfold int64.sub. rewrite <- signed_bits. unfold int64.bits.
  rewrite <- Zminus_mod. reflexivity.
Qed.

Lemma wrap64_mul a b : wrap64 (a * b) = int64.mul a b.
Proof.
  unfold int64.mul. rewrite <- signed_bits. unfold int64.bits.
  rewrite <- Z.mul_mod by lia. reflexivity.
Qed.

Lemma quot_range a b :
  int64.inRange a -> int64.inRange b -> b <> 0 ->
  ~ (a = int64.MinInt64 /\ b = -1) -> int64.inRange (Z.quot a b).
Proof.
  unfold int64.inRange, int64.MinInt64, int64.MaxInt64.
  intros Ha Hb Hb0 Hs.
  assert (Habs : Z.abs (Z.quot a b) <= Z.abs a).
  { rewrite <- Z.quot_abs by lia.
    apply Z.quot_le_upper_bound; try lia. nia. }
  destruct (Z.eq_dec a (-2^63)) as [-> | Hne].
  - assert (b <> -1) by lia.
    destruct (Z.eq_dec b 1) as [-> | Hb1].
    + rewrite Z.quot_1_r. lia.
    + assert (Z.abs (Z.quot (-2^63) b) < 2^63).
      { rewrite <- Z.quot_abs by lia.
        apply Z.quot_lt_upper_bound; lia. }
      lia.
  - lia.
Qed.

Lemma wrap64_quot a b :
  int64.inRange a -> int64.inRange b -> b <> 0 ->
  wrap64 (Z.quot a b) = int64.quo a b.
Proof.
  intros Ha Hb Hb0. unfold int64.quo.
  destruct (Z.eqb_spec a int64.MinInt64) as [-> | Hn]; simpl.
  - destruct (Z.eqb_spec b (-1)) as [-> | Hm].
    + reflexivity.
    + rewrite wrap64_id by (apply quot_range; tauto).
      apply Z.quot_div, Hb0.
  - rewrite wrap64_id by (apply quot_range; tauto).
    apply Z.quot_div, Hb0.
Qed.

Lemma wrap64_rem a b :
  int64.inRange a -> int64.inRange b -> b <> 0 ->
  wrap64 (Z.rem a b) = int64.rem a b.
Proof.
  intros Ha Hb Hb0. unfold int64.rem.
  rewrite wrap64_id.
  - apply Z.rem_mod, Hb0.
  - unfold int64.inRange, int64.MinInt64, int64.MaxInt64 in *.
    pose proof (Z.rem_bound_abs a b Hb0). lia.
Qed.

Lemma native_defined op a b :
  In op integerOperators -> is_Some (native op a b).
Proof.
  unfold integerOperators. simpl.
  intros H; repeat (destruct H as [<- | H]; [eexists; reflexivity |]).
  destruct H.
Qed.

Lemma integer_infix_native tok op p q a b r st :
  int64.inRange a -> int64.inRange b -> b <> 0 ->
  native op a b = Some r ->
  evalInfixExpression tok op (Integer p a) (Integer q b) st = delivers r st.
Proof.
  intros Ha Hb Hb0 Hr.
  assert (Hz : (b =? 0)%Z = false) by (apply Z.eqb_neq, Hb0).
  unfold native in Hr.
  repeat match type of Hr with
    | (if ?o =? ?s then _ else _) = Some _ =>
        destruct (String.eqb_spec o s) as [-> | _];
        [ injection Hr as <-; unfold_infix; try rewrite Hz; unfold delivers
        | ]
    end; try discriminate Hr.
  - rewrite wrap64_add. reflexivity.
  - rewrite wrap64_sub. reflexivity.
  - rewrite wrap64_mul. reflexivity.
  - rewrite wrap64_quot by assumption. reflexivity.
  - rewrite wrap64_rem by assumption. reflexivity.
  - do 2 f_equal. apply eq_true_iff_eq.
    rewrite Z.ltb_lt, bool_decide_eq_true. reflexivity.
  - do 2 f_equal. apply eq_true_iff_eq.
    rewrite Z.gtb_ltb, Z.ltb_lt, bool_decide_eq_true. reflexivity.
  - do 2 f_equal. apply eq_true_iff_eq.
    rewrite Z.leb_le, bool_decide_eq_true. reflexivity.
  - do 2 f_equal. apply eq_true_iff_eq.
    rewrite Z.geb_leb, Z.leb_le, bool_decide_eq_true. reflexivity.
  - do 2 f_equal. apply eq_true_iff_eq.
    rewrite Z.eqb_eq, bool_decide_eq_true. reflexivity.
  - do 2 f_equal. apply eq_true_iff_eq.
    rewrite negb_true_iff, Z.eqb_neq, bool_decide_eq_true. reflexivity.
Qed.

(** C7. For all 64-bit integers [a] and [b] with [b] not zero and each
    of the eleven operators, evaluating [a op b] on two Integer operands
    yields what native two's-complement [int64] arithmetic and comparison
    give: a fresh Integer carrying the native result (itself a 64-bit
    integer) for the arithmetic operators, the Boolean singleton of the
    native comparison otherwise. *)
Theorem integer_infix_matches_native :
  forall tok op p q a b st,
    int64.inRange a -> int64.inRange b -> b <> 0 ->
    In op integerOperators ->
    exists r,
      native op a b = Some r
      /\ evalInfixExpression tok op (Integer p a) (Integer q b) st
         = delivers r st
      /\ (forall z, r = NativeInt z -> int64.inRange z).
Proof.
  intros tok op p q a b st Ha Hb Hb0 Hop.
  destruct (native_defined op a b Hop) as [r Hr].
  exists r. split_and!.
  - exact Hr.
  - apply integer_infix_native; assumption.
  - intros z ->. revert Hr. unfold native.
    repeat match goal with
      | |- (if ?o =? ?s then _ else _) = Some _ -> _ =>
          destruct (String.eqb_spec o s) as [-> | _];
          [ intros [= <-] | ]
      end; try discriminate.
    + rewrite <- wrap64_add. apply wrap64_range.
    + rewrite <- wrap64_sub. apply wrap64_range.
    + rewrite <- wrap64_mul. apply wrap64_range.
    + rewrite <- wrap64_quot by assumption. apply wrap64_range.
    + rewrite <- wrap64_rem by assumption. apply wrap64_range.
Qed.

Lemma integer_infix_matches_native_witness :
  evalInfixExpression opTok "/" (Integer 10 (-7)) (Integer 11 2) st0
    = Done (Integer (next st0) (-3)) (allocate st0)
  /\ evalInfixExpression opTok "%" (Integer 10 (-7)) (Integer 11 2) st0
    = Done (Integer (next st0) (-1)) (allocate st0)
  /\ evalInfixExpression opTok "+" (Integer 10 int64.MaxInt64)
       (Integer 11 1) st0
    = Done (Integer (next st0) int64.MinInt64) (allocate st0)
  /\ evalInfixExpression opTok "<=" (Integer 10 3) (Integer 11 3) st0
    = Done TRUE st0.
Proof.
  assert (Hrange : forall z : Z,
             ((int64.MinInt64 <=? z) && (z <=? int64.MaxInt64))%Z = true ->
             int64.inRange z).
  { intros z H. apply andb_true_iff in H as [H1 H2].
    split; apply Z.leb_le; assumption. }
  split_and!.
  - destruct (integer_infix_matches_native opTok "/" 10 11 (-7) 2 st0)
      as (r & Hr & Hrun & _);
      [apply Hrange; reflexivity | apply Hrange; reflexivity | discriminate
      | simpl; tauto |].
    injection Hr as <-. exact Hrun.
  - destruct (integer_infix_matches_native opTok "%" 10 11 (-7) 2 st0)
      as (r & Hr & Hrun & _);
      [apply Hrange; reflexivity | apply Hrange; reflexivity | discriminate
      | simpl; tauto |].
    injection Hr as <-. exact Hrun.
  - destruct (integer_infix_matches_native opTok "+" 10 11
                int64.MaxInt64 1 st0)
      as (r & Hr & Hrun & _);
      [apply Hrange; reflexivity | apply Hrange; reflexivity | discriminate
      | simpl; tauto |].
    injection Hr as <-. exact Hrun.
  - destruct (integer_infix_matches_native opTok "<=" 10 11 3 3 st0)
      as (r & Hr & Hrun & _);
      [apply Hrange; reflexivity | apply Hrange; reflexivity | discriminate
      | simpl; tauto |].
    injection Hr as <-. exact Hrun.
Defined.

(** ** Environments and parameter binding *)

Lemma bindIn_length es e name val :
  length (bindIn es e name val) = length es.
Proof.
  unfold bindIn. destruct (es !! e); [apply length_insert | reflexivity].
Qed.

Lemma Set_valid e name val st :
  (e < length (envs st))%nat ->
  exists st',
    Set_ e name val st = Done tt st'
    /\ length (envs st') = length (envs st).
Proof.
  intros He. unfold Set_.
  destruct (lookup_lt_is_Some_2 (envs st) e He) as [env Henv].
  rewrite Henv. eexists. split; [reflexivity |].
  simpl. apply bindIn_length.
Qed.

Lemma bindParameters_from fnEnv Parameters :
  forall i args st,
    (fnEnv < length (envs st))%nat ->
    ((i + length Parameters <= length args)%nat ->
       exists st',
         bindParameters fnEnv i Parameters args st = Done tt st'
         /\ length (envs st') = length (envs st))
    /\ ((i <= length args < i + length Parameters)%nat ->
       exists st',
         bindParameters fnEnv i Parameters args st
           = Panic (IndexOutOfRange (length args) (length args)) st').
Proof.
  induction Parameters as [| param rest IH]; intros i args st He; simpl.
  - split; [intros _; eexists; split; reflexivity | lia].
  - destruct (args !! i) as [arg |] eqn:Harg.
    + apply lookup_lt_Some in Harg.
      destruct (Set_valid fnEnv (ast.IdentValue param) arg st He)
        as (st1 & Hset & Hlen).
      assert (He1 : (fnEnv < length (envs st1))%nat) by lia.
      destruct (IH (S i) args st1 He1) as [IHok IHbad].
      unfold bind. rewrite Hset. split; intros Hi.
      * destruct IHok as (st' & Hrun & Hlen'); [lia |].
        exists st'. split; [exact Hrun | lia].
      * apply IHbad. lia.
    + apply lookup_ge_None in Harg. split; intros Hi; [lia |].
      assert (i = length args) as -> by lia.
      eexists. reflexivity.
Qed.

Lemma evalExpressionsFrom_length ev exps :
  forall env acc st args st',
    evalExpressionsFrom ev exps env acc st = Done args st' ->
    length args = (length acc + length exps)%nat.
Proof.
  induction exps as [| exp rest IH]; intros env acc st args st' H; simpl in *.
  - injection H as <- _. lia.
  - unfold bind in H. destruct (ev (ast.ExprNode exp) env st); try discriminate.
    apply IH in H. rewrite length_app in H. simpl in H. lia.
Qed.

(** C6. The parameter-binding loop of a call indexes the argument slice
    by the parameter's position with no arity check: with fewer arguments
    than parameters it panics with an index out of range (and no Error
    object is returned), with at least as many arguments as parameters
    every index is in range and the loop completes.  At the level of a
    call: when the callee evaluates to a user-defined Function, the
    arguments evaluate, and binding is reached, a call with fewer
    argument expressions than parameters ends in that panic. *)
Theorem call_arity_unchecked :
  (forall fnEnv Parameters args st,
     (fnEnv < length (envs st))%nat ->
     ((length args < length Parameters)%nat ->
        exists st',
          bindParameters fnEnv 0 Parameters args st
            = Panic (IndexOutOfRange (length args) (length args)) st')
     /\ ((length Parameters <= length args)%nat ->
        exists st', bindParameters fnEnv 0 Parameters args st = Done tt st'))
  /\ (forall fuel tok callee Arguments env st p Parameters Body Env st1
            args st2,
       Eval fuel (ast.ExprNode callee) env st
         = Done (Function p Parameters Body Env) st1 ->
       evalExpressions (Eval fuel) Arguments env st1 = Done args st2 ->
       onlyArgumentFailed args = false ->
       (length Arguments < length Parameters)%nat ->
       exists st',
         Eval (S fuel) (ast.ExprNode (ast.FunctionCall tok callee Arguments))
           env st
         = Panic (IndexOutOfRange (length Arguments) (length Arguments)) st').
Proof.
  split.
  - intros fnEnv Parameters args st He.
    destruct (bindParameters_from fnEnv Parameters 0 args st He)
      as [Hok Hbad].
    split; intros H.
    + apply Hbad. lia.
    + destruct Hok as (st' & Hrun & _); [lia | eauto].
  - intros fuel tok callee Arguments env st p Parameters Body Env st1
      args st2 Hcallee Hargs Hfailed Hlen.
    assert (Hn : length args = length Arguments).
    { apply evalExpressionsFrom_length in Hargs. simpl in Hargs. lia. }
    simpl. unfold evalFunctionCall, bind.
    rewrite Hcallee. simpl. rewrite Hargs, Hfailed.
    unfold NewEnclosedEnvironment.
    match goal with
    | |- context [bindParameters ?e 0 ?ps ?as_ ?s] =>
        destruct (bindParameters_from e ps 0 as_ s) as [_ Hbad]
    end.
    { simpl. rewrite length_app. simpl. lia. }
    destruct Hbad as (st' & Hrun); [lia |].
    rewrite Hrun, Hn. eauto.
Qed.

Lemma call_arity_unchecked_witness :
  (exists st',
     bindParameters 0 0 [ident "a"; ident "b"] [Integer 9 1] stFirst
       = Panic (IndexOutOfRange 1 1) st')
  /\ (exists st',
        bindParameters 0 0 [ident "a"] [Integer 9 1] stFirst = Done tt st')
  /\ (exists st',
        Eval 3 (ast.ExprNode (call (var "first") [int 1])) 0 stFirst
          = Panic (IndexOutOfRange 1 1) st').
Proof.
  split_and!.
  - apply (proj1 call_arity_unchecked 0%nat [ident "a"; ident "b"]
             [Integer 9 1] stFirst); simpl; lia.
  - apply (proj1 call_arity_unchecked 0%nat [ident "a"]
             [Integer 9 1] stFirst); simpl; lia.
  - eapply (proj2 call_arity_unchecked 2%nat opTok (var "first") [int 1]
              0%nat stFirst);
      [reflexivity | reflexivity | reflexivity | simpl; lia].
Defined.

(** ** While loops *)

Lemma last_cons {A} (x : A) (xs : list A) (d : A) :
  List.last (x :: xs) d = List.last xs x.
Proof.
  revert x d. induction xs as [| y ys IH]; intros x d; [reflexivity |].
  change (List.last (y :: ys) d = List.last (y :: ys) x).
  rewrite !IH. reflexivity.
Qed.

Lemma LoopRun_returned ev c b env st vs r st' :
  LoopRun ev c b env st vs (Returned r) st' -> isReturn r = true.
Proof.
  remember (Returned r) as e eqn:He. intros H.
  induction H; try discriminate He; [congruence | auto].
Qed.

(** Enough iterations give the value of the run. *)
Lemma evalWhileFrom_run ev c b env st vs e st' :
  LoopRun ev c b env st vs e st' ->
  forall n result,
    (length vs < n)%nat ->
    evalWhileFrom ev n c b env result st = Done (loopValue e vs result) st'.
Proof.
  induction 1 as [st condition st1 Hc Ht
                 | st condition st1 r st2 Hc Ht Hb Hr
                 | st condition st1 r st2 vs e st3 Hc Ht Hb Hr Hrun IH];
    intros n result Hn; (destruct n as [| n]; [simpl in Hn; lia |]);
    simpl; unfold bind; rewrite Hc, Ht; simpl.
  - reflexivity.
  - rewrite Hb, Hr. reflexivity.
  - rewrite Hb, Hr. rewrite IH by (simpl in Hn; lia).
    destruct e; unfold loopValue; [rewrite last_cons |]; reflexivity.
Qed.

Lemma Eval_while fuel tok c b env st :
  Eval (S fuel) (ast.StmtNode (ast.WhileLoop tok c b)) env st
  = evalWhileFrom (Eval fuel) fuel c b env NULL st.
Proof. reflexivity. Qed.

(** C8. A while loop whose condition is initially not truthy yields
    [NULL] in the state the condition left, whatever the body is (the
    body is never evaluated); a return signal produced by the body ends
    the loop at once and is the loop's value, unchanged and still
    wrapped; and without a return the loop's value is that of the last
    body evaluation. *)
Theorem while_loop_value :
  forall fuel tok Condition Body env st,
    (forall condition st1,
       Eval fuel (ast.ExprNode Condition) env st = Done condition st1 ->
       isTruthy condition = false ->
       Eval (S fuel) (ast.StmtNode (ast.WhileLoop tok Condition Body)) env st
         = Done NULL st1)
    /\ (forall vs r st',
       LoopRun (Eval fuel) Condition Body env st vs (Returned r) st' ->
       (length vs < fuel)%nat ->
       Eval (S fuel) (ast.StmtNode (ast.WhileLoop tok Condition Body)) env st
         = Done r st'
       /\ isReturn r = true)
    /\ (forall vs st',
       LoopRun (Eval fuel) Condition Body env st vs ConditionFalse st' ->
       (length vs < fuel)%nat ->
       Eval (S fuel) (ast.StmtNode (ast.WhileLoop tok Condition Body)) env st
         = Done (List.last vs NULL) st').
Proof.
  intros fuel tok Condition Body env st. split_and!.
  - intros condition st1 Hc Ht. rewrite Eval_while.
    destruct fuel as [| fuel]; [discriminate Hc |].
    apply (evalWhileFrom_run _ _ _ _ _ [] ConditionFalse).
    + eapply loop_exit; eassumption.
    + simpl. lia.
  - intros vs r st' Hrun Hn. split.
    + rewrite Eval_while.
      apply (evalWhileFrom_run _ _ _ _ _ _ _ _ Hrun). exact Hn.
    + eapply LoopRun_returned, Hrun.
  - intros vs st' Hrun Hn. rewrite Eval_while.
    apply (evalWhileFrom_run _ _ _ _ _ _ _ _ Hrun). exact Hn.
Qed.

Lemma while_loop_value_witness :
  (forall body,
     Eval 2 (ast.StmtNode (neverRuns body)) 0 stCount = Done NULL stCount)
  /\ (exists st',
        Eval 4 (ast.StmtNode serveSeven) 0 stCount
          = Done (ReturnValue 6 (Integer 5 7)) st')
  /\ (exists st',
        Eval 5 (ast.StmtNode countToTwo) 0 stCount
          = Done (Integer 10 2) st').
Proof.
  split_and!.
  - intros body.
    apply (proj1 (while_loop_value 1 opTok (ast.BooleanLiteral opTok false)
                    body 0%nat stCount) FALSE stCount);
      reflexivity.
  - eexists.
    eapply (proj1 (proj2 (while_loop_value 3 opTok _ _ 0%nat stCount)) []).
    + eapply loop_return; reflexivity.
    + simpl; lia.
  - eexists.
    eapply (proj2 (proj2 (while_loop_value 4 opTok _ _ 0%nat stCount))
              [Integer 7 1; Integer 10 2]).
    + eapply loop_iter; [reflexivity | reflexivity | reflexivity
                        | reflexivity |].
      eapply loop_iter; [reflexivity | reflexivity | reflexivity
                        | reflexivity |].
      eapply loop_exit; reflexivity.
    + simpl; lia.
Defined.

(** ** Where errors are forwarded

    The prefix, infix, call, block and program cases test [isError] after
    a sub-evaluation and return the Error at once. *)

Lemma prefix_forwards_error fuel tok op r env st e st1 :
  Eval fuel (ast.ExprNode r) env st = Done e st1 ->
  isError e = true ->
  Eval (S fuel) (ast.ExprNode (ast.PrefixExpression tok op r)) env st
  = Done e st1.
Proof.
  intros Hr He. simpl. unfold bind. rewrite Hr, He. reflexivity.
Qed.

Lemma infix_forwards_left_error fuel tok l op r env st e st1 :
  Eval fuel (ast.ExprNode l) env st = Done e st1 ->
  isError e = true ->
  Eval (S fuel) (ast.ExprNode (ast.InfixExpression tok l op r)) env st
  = Done e st1.
Proof.
  intros Hl He. simpl. unfold bind. rewrite Hl, He. reflexivity.
Qed.

Lemma infix_forwards_right_error fuel tok l op r env st v st1 e st2 :
  Eval fuel (ast.ExprNode l) env st = Done v st1 ->
  isError v = false ->
  Eval fuel (ast.ExprNode r) env st1 = Done e st2 ->
  isError e = true ->
  Eval (S fuel) (ast.ExprNode (ast.InfixExpression tok l op r)) env st
  = Done e st2.
Proof.
  intros Hl Hv Hr He. simpl. unfold bind.
  rewrite Hl, Hv, Hr, He. reflexivity.
Qed.

Lemma block_stops_at_error ev s rest env result st e st1 :
  ev (ast.StmtNode s) env st = Done e st1 ->
  isError e = true ->
  evalBlockFrom ev (s :: rest) env result st = Done e st1.
Proof.
  intros Hs He. simpl. unfold bind. rewrite Hs, He. reflexivity.
Qed.

Lemma program_stops_at_error ev s rest env result st e st1 :
  ev (ast.StmtNode s) env st = Done e st1 ->
  isError e = true ->
  evalProgramFrom ev (s :: rest) env result st = Done e st1.
Proof.
  intros Hs He. simpl. unfold bind. rewrite Hs, He. reflexivity.
Qed.

Lemma call_forwards_callee_error fuel tok f args env st e st1 :
  Eval fuel (ast.ExprNode f) env st = Done e st1 ->
  isError e = true ->
  Eval (S fuel) (ast.ExprNode (ast.FunctionCall tok f args)) env st
  = Done e st1.
Proof.
  intros Hf He. simpl. unfold evalFunctionCall, bind.
  rewrite Hf, He. reflexivity.
Qed.

(** The one case in which a failing argument is noticed: it is the only
    argument. *)
Lemma call_forwards_only_argument_error fuel tok f arg env st v st1 e st2 :
  Eval fuel (ast.ExprNode f) env st = Done v st1 ->
  isError v = false ->
  Eval fuel (ast.ExprNode arg) env st1 = Done e st2 ->
  isError e = true ->
  Eval (S fuel) (ast.ExprNode (ast.FunctionCall tok f [arg])) env st
  = Done e st2.
Proof.
  intros Hf Hv Harg He. simpl.
  unfold evalFunctionCall, evalExpressions, bind. simpl. unfold bind.
  rewrite Hf, Hv, Harg. simpl. unfold onlyArgumentFailed. simpl.
  rewrite He. reflexivity.
Qed.

(** ** Where errors are not forwarded *)

(** An Error object is neither [NULL] nor [FALSE]: conditionals take it
    for true. *)
Lemma error_is_truthy (e : Object) : isError e = true -> isTruthy e = true.
Proof.
  destruct e; try discriminate. intros _. reflexivity.
Qed.

Lemma if_runs_consequence_on_error fuel tok c cons alt env st e st1 :
  Eval fuel (ast.ExprNode c) env st = Done e st1 ->
  isError e = true ->
  Eval (S fuel) (ast.StmtNode (ast.IfStatement tok c cons alt)) env st
  = Eval fuel (ast.BlockNode cons) env st1.
Proof.
  intros Hc He. simpl. unfold evalIfStatement, bind.
  rewrite Hc, (error_is_truthy e He). reflexivity.
Qed.

Lemma member_access_of_error_is_null fuel tok o m env st e st1 :
  Eval fuel (ast.ExprNode o) env st = Done e st1 ->
  isError e = true ->
  Eval (S fuel) (ast.ExprNode (ast.MemberAccessExpression tok o m)) env st
  = Done NULL st1.
Proof.
  intros Ho He. simpl. unfold evalMemberAccessExpression, bind.
  rewrite Ho. destruct e; try discriminate He; reflexivity.
Qed.

Ltac by_evaluation :=
  try (rewrite Eval_more_fuel by (vm_compute; discriminate));
  try (rewrite main_more_fuel by (vm_compute; discriminate));
  vm_compute; reflexivity.

(** C1, at failing inputs.  The sub-evaluation [5 + true] yields an
    Error, yet, with any fuel that suffices: the if statement guarded by
    it runs its consequence and yields the Integer 1; member access on
    it yields [NULL]; the while loop with it as condition runs its body,
    whose return signal becomes the loop's value; and a loop whose body
    fails in its first iteration goes on to a second one, as the final
    value 2 of [n] shows. *)
Theorem error_not_propagated :
  forall extra : nat,
    Eval (3 + extra) (ast.ExprNode typeError) 0 stEmpty
      = Done (Error 5 typeErrorMessage 10 13 "")
             (allocate (allocate stEmpty))
    /\ Eval (5 + extra) (ast.StmtNode ifOnError) 0 stEmpty
      = Done (Integer 6 1) (allocate (allocate (allocate stEmpty)))
    /\ Eval (5 + extra) (ast.ExprNode memberOfError) 0 stEmpty
      = Done NULL (allocate (allocate stEmpty))
    /\ (exists st',
          Eval (5 + extra) (ast.StmtNode whileOnError) 0 stEmpty
            = Done (ReturnValue 7 (Integer 6 1)) st')
    /\ (exists st',
          Eval (6 + extra) (ast.StmtNode whileBodyFails) 0 stCount
            = Done (Error 14 typeErrorMessage 10 13 "") st'
          /\ Get 0 "n" st' = Done (Integer 12 2, true) st').
Proof.
  intros extra. split_and!.
  - by_evaluation.
  - by_evaluation.
  - by_evaluation.
  - eexists. by_evaluation.
  - eexists. split; by_evaluation.
Qed.

(** C2, at a failing input.  In the call [second(5 + true, 7)] of
    [praise second(a, b): serve b beef] the first argument evaluates to
    an Error; the second argument is evaluated all the same, the body
    runs, and the call yields the Integer 7 instead of the Error, with
    any fuel that suffices. *)
Theorem call_continues_after_argument_error :
  forall extra : nat,
    (exists st',
       evalExpressions (Eval (3 + extra)) [typeError; int 7] 0 stSecond
         = Done [Error 6 typeErrorMessage 10 13 ""; Integer 7 7] st')
    /\ (exists st',
          Eval (6 + extra) (ast.ExprNode callSecond) 0 stSecond
            = Done (Integer 7 7) st').
Proof.
  intros extra. split; eexists.
  - unfold evalExpressions.
    rewrite (evalExpressionsFrom_refines (Eval 3) (Eval (3 + extra)))
      by (first [apply Eval_refines; lia | vm_compute; discriminate]).
    vm_compute. reflexivity.
  - by_evaluation.
Qed.

(** C4, at failing inputs.  [prep x = 5 + true] and [x = 5 + true] bind
    [x] to the Error object the right-hand side evaluated to. *)
Theorem error_stored_in_variable :
  forall extra : nat,
    (exists st',
       Eval (4 + extra) (ast.StmtNode declareError) 0 stEmpty
         = Done (Error 5 typeErrorMessage 10 13 "") st'
       /\ Get 0 "x" st'
          = Done (Error 5 typeErrorMessage 10 13 "", true) st')
    /\ (exists st',
          Eval (4 + extra) (ast.StmtNode assignError) 0 stEmpty
            = Done (Error 5 typeErrorMessage 10 13 "") st'
          /\ Get 0 "x" st'
             = Done (Error 5 typeErrorMessage 10 13 "", true) st').
Proof.
  intros extra. split; eexists; split; by_evaluation.
Qed.

(** The three renderings of an Error. *)
Lemma Error_Inspect_formats p msg line col file :
  (file <> "" ->
     Inspect (Error p msg line col file)
     = Some ("Error at " +:+ file +:+ ":" +:+ itoa line +:+ ":"
               +:+ itoa col +:+ " - " +:+ msg))
  /\ (file = "" -> (line > 0)%Z ->
       Inspect (Error p msg line col file)
       = Some ("Error at line " +:+ itoa line +:+ ", column "
                 +:+ itoa col +:+ " - " +:+ msg))
  /\ (file = "" -> (line <= 0)%Z ->
       Inspect (Error p msg line col file) = Some ("Error: " +:+ msg)).
Proof.
  simpl. split_and!.
  - intros Hf. rewrite bool_decide_eq_true_2 by exact Hf. reflexivity.
  - intros -> Hl. rewrite bool_decide_eq_false_2 by (intros H; apply H; reflexivity).
    rewrite bool_decide_eq_true_2 by exact Hl. reflexivity.
  - intros -> Hl. rewrite bool_decide_eq_false_2 by (intros H; apply H; reflexivity).
    rewrite bool_decide_eq_false_2 by lia. reflexivity.
Qed.

(** C3, at failing inputs.  When the body of the entry point fails, the
    process prints nothing and ends with status 0.  When a top-level
    statement fails after the entry point was declared, evaluating the
    program yields the Error, whose rendering is the documented
    [Error at line L, column C - message]; it is printed nowhere, the
    entry point runs all the same, and the process ends with status 0.
    This is so with any fuel that suffices. *)
Theorem top_level_error_unreported :
  forall extra : nat,
    main.main (8 + extra) [] entryFails [] = main.Exited 0 ""
    /\ (exists st',
          Eval (8 + extra) (ast.ProgramNode topLevelFails) 0 stEmpty
            = Done (Error 9 typeErrorMessage 10 13 "") st')
    /\ Inspect (Error 9 typeErrorMessage 10 13 "")
       = Some "Error at line 10, column 13 - type mismatch: INTEGER + BOOLEAN"
    /\ main.main (8 + extra) [] topLevelFails []
       = main.Exited 0 ("7" +:+ newline).
Proof.
  intros extra. split_and!.
  - by_evaluation.
  - eexists. by_evaluation.
  - reflexivity.
  - by_evaluation.
Qed.

(** ** Return signals are never stored *)

Lemma simple_clean v : simple v = true -> clean v.
Proof. destruct v; simpl; intros H; try discriminate H; exact I. Qed.

Lemma clean_unwraps v : clean v -> unwrapsClean v.
Proof. destruct v; simpl; tauto. Qed.

Lemma error_clean v : isError v = true -> clean v.
Proof. destruct v; simpl; intros H; try discriminate H; exact I. Qed.

Lemma keeps_ret {A} (a : A) (Q : A -> Prop) : Q a -> keeps (ret a) Q.
Proof. intros HQ st a' st' Hst [= <- <-]. auto. Qed.

Lemma keeps_panic {A} r (Q : A -> Prop) : keeps (panic r) Q.
Proof. intros st a st' _ H. discriminate H. Qed.

Lemma keeps_diverge {A} (Q : A -> Prop) : keeps diverge Q.
Proof. intros st a st' _ H. discriminate H. Qed.

Lemma keeps_bind {A B} (m : M A) (k : A -> M B) P Q :
  keeps m P -> (forall a, P a -> keeps (k a) Q) -> keeps (bind m k) Q.
Proof.
  intros Hm Hk st b st' Hst H. unfold bind in H.
  destruct (m st) as [a s | |] eqn:E; try discriminate H.
  destruct (Hm st a s Hst E) as [Hs HP].
  exact (Hk a HP s b st' Hs H).
Qed.

Lemma keeps_weaken {A} (m : M A) (P Q : A -> Prop) :
  keeps m P -> (forall a, P a -> Q a) -> keeps m Q.
Proof.
  intros Hm HPQ st a st' Hst H. destruct (Hm st a st' Hst H). auto.
Qed.

Lemma keeps_new mk (Q : Object -> Prop) :
  (forall p, Q (mk p)) -> keeps (new mk) Q.
Proof. intros HQ st a st' Hst [= <- <-]. split; [exact Hst | apply HQ]. Qed.

Lemma keeps_typeOf o : keeps (typeOf o) (fun _ => True).
Proof.
  unfold typeOf. destruct (Type_ o); [apply keeps_ret | apply keeps_panic]; exact I.
Qed.

Lemma keeps_inspect o : keeps (inspect o) (fun _ => True).
Proof.
  unfold inspect. destruct (Inspect o); [apply keeps_ret | apply keeps_panic]; exact I.
Qed.

Lemma keeps_Print s : keeps (Print s) (fun _ => True).
Proof. intros st a st' Hst [= <- <-]. split; [exact Hst | exact I]. Qed.

Lemma keeps_ScanLine : keeps ScanLine (fun _ => True).
Proof.
  intros st a st' Hst H. unfold ScanLine in H.
  destruct (stdin st); injection H as <- <-; split; auto.
Qed.

Lemma storeClean_snoc st env :
  storeClean st -> store env = ∅ ->
  storeClean (mkState (next st) (envs st ++ [env]) (stdout st) (stdin st)).
Proof.
  intros Hst Hempty e env' name v He Hv. simpl in He.
  apply lookup_app_Some in He as [He | [_ He]].
  - exact (Hst e env' name v He Hv).
  - apply list_lookup_singleton_Some in He as [_ <-].
    rewrite Hempty, lookup_empty in Hv. discriminate Hv.
Qed.

Lemma keeps_NewEnclosedEnvironment parent :
  keeps (NewEnclosedEnvironment parent) (fun _ => True).
Proof.
  intros st a st' Hst [= <- <-]. split; [| exact I].
  apply storeClean_snoc; [exact Hst | reflexivity].
Qed.

Lemma keeps_NewEnvironment : keeps NewEnvironment (fun _ => True).
Proof.
  intros st a st' Hst [= <- <-]. split; [| exact I].
  apply storeClean_snoc; [exact Hst | reflexivity].
Qed.

Lemma keeps_Get e name : keeps (Get e name) (fun r => clean (fst r)).
Proof.
  intros st a st' Hst H. unfold Get in H.
  destruct (envs st !! e); [| discriminate H].
  destruct (resolve _ _ _ _) as [e' |];
    [| injection H as <- <-; split; [exact Hst | exact I]].
  destruct (envs st !! e') as [env' |] eqn:He';
    [| injection H as <- <-; split; [exact Hst | exact I]].
  destruct (store env' !! name) as [v |] eqn:Hv;
    injection H as <- <-; (split; [exact Hst | simpl]).
  - exact (Hst e' env' name v He' Hv).
  - exact I.
Qed.

Lemma storeClean_bindIn st target name val :
  storeClean st -> clean val ->
  storeClean (mkState (next st) (bindIn (envs st) target name val)
                      (stdout st) (stdin st)).
Proof.
  intros Hst Hval e env n v He Hv. simpl in He. unfold bindIn in He.
  destruct (envs st !! target) as [tenv |] eqn:Ht;
    [| exact (Hst e env n v He Hv)].
  destruct (decide (e = target)) as [-> | Hne].
  - rewrite list_lookup_insert_eq in He by (eapply lookup_lt_Some, Ht).
    injection He as <-. simpl in Hv.
    destruct (decide (n = name)) as [-> | Hn].
    + rewrite lookup_insert_eq in Hv. injection Hv as <-. exact Hval.
    + rewrite lookup_insert_ne in Hv by congruence.
      exact (Hst target tenv n v Ht Hv).
  - rewrite list_lookup_insert_ne in He by congruence.
    exact (Hst e env n v He Hv).
Qed.

Lemma keeps_Set e name val :
  clean val -> keeps (Set_ e name val) (fun _ => True).
Proof.
  intros Hval st a st' Hst H. unfold Set_ in H.
  destruct (envs st !! e); [| discriminate H].
  injection H as <- <-. split; [| exact I].
  apply storeClean_bindIn; assumption.
Qed.

Ltac keeps_auto :=
  repeat first
    [ apply keeps_panic
    | apply keeps_diverge
    | apply keeps_ret; simpl; try exact I; try tauto
    | apply keeps_new; intros ?; simpl; try exact I; try tauto
    | eapply keeps_bind; [apply keeps_typeOf | intros ? _]
    | match goal with
      | |- keeps (if ?b then _ else _) _ => destruct b
      | |- keeps (match ?x with _ => _ end) _ => destruct x
      end ].

Lemma nativeBool_clean b : clean (nativeBoolToBooleanObject b).
Proof. destruct b; exact I. Qed.

Lemma keeps_evalPrefixExpression tok op right :
  keeps (evalPrefixExpression tok op right) clean.
Proof.
  unfold evalPrefixExpression, evalMinusPrefixOperator, newError.
  keeps_auto.
  unfold evalBangOperator.
  repeat match goal with |- context [if ?b then _ else _] => destruct b end;
    exact I.
Qed.

Lemma keeps_bothOfType t left right :
  keeps (bothOfType t left right) (fun _ => True).
Proof. unfold bothOfType. keeps_auto. Qed.

Lemma keeps_evalInfixExpression tok op left right :
  keeps (evalInfixExpression tok op left right) clean.
Proof.
  unfold evalInfixExpression.
  eapply keeps_bind; [apply keeps_bothOfType | intros integers _].
  destruct integers.
  { unfold evalIntegerInfixExpression, unknownOperator, newError.
    keeps_auto; apply nativeBool_clean. }
  eapply keeps_bind; [apply keeps_bothOfType | intros strings _].
  destruct strings.
  { unfold evalStringInfixExpression, unknownOperator, newError.
    keeps_auto; apply nativeBool_clean. }
  unfold unknownOperator, newError.
  keeps_auto; apply nativeBool_clean.
Qed.

Lemma keeps_evalIdentifier node env : keeps (evalIdentifier node env) clean.
Proof.
  unfold evalIdentifier, newError.
  eapply keeps_bind; [apply keeps_Get | intros r Hr].
  keeps_auto.
Qed.

Lemma keeps_preachAll args : keeps (preachAll args) (fun _ => True).
Proof.
  induction args as [| a rest IH]; simpl.
  - apply keeps_ret. exact I.
  - eapply keeps_bind; [apply keeps_inspect | intros s _].
    eapply keeps_bind; [apply keeps_Print | intros _ _]. exact IH.
Qed.

Lemma keeps_callBuiltin fn args : keeps (callBuiltin fn args) clean.
Proof.
  destruct fn; simpl.
  - eapply keeps_bind; [apply keeps_preachAll | intros _ _].
    apply keeps_ret. exact I.
  - eapply (keeps_bind _ _ (fun _ => True)).
    + destruct args; [apply keeps_ret; exact I |].
      eapply keeps_bind; [apply keeps_inspect | intros s _].
      apply keeps_Print.
    + intros _ _.
      eapply keeps_bind; [apply keeps_ScanLine | intros line _].
      destruct line; apply keeps_new; intros p; exact I.
Qed.

Lemma keeps_loadModule name : keeps (loadModule name) clean.
Proof.
  unfold loadModule, createIOModule.
  destruct (name =? "io").
  - intros st a st' Hst H. unfold bind, new, ret in H. simpl in H.
    injection H as <- <-. split; [exact Hst |].
    simpl. intros k m Hm.
    apply lookup_insert_Some in Hm as [[_ <-] | [_ Hm]]; [reflexivity |].
    apply lookup_insert_Some in Hm as [[_ <-] | [_ Hm]]; [reflexivity |].
    rewrite lookup_empty in Hm. discriminate Hm.
  - apply keeps_new. intros p. simpl. apply map_Forall_empty.
Qed.

Section Invariant.

Variable ev : ast.Node -> EnvPtr -> M Object.
Hypothesis Hev : forall node env, keeps (ev node env) (post node).

Lemma keeps_expr e env : keeps (ev (ast.ExprNode e) env) clean.
Proof. eapply keeps_weaken; [apply Hev |]. intros r [_ Hr]. exact Hr. Qed.

Lemma keeps_node node env : keeps (ev node env) unwrapsClean.
Proof. eapply keeps_weaken; [apply Hev |]. intros r [Hr _]. exact Hr. Qed.

Lemma keeps_evalProgramFrom statements env :
  forall result,
    unwrapsClean result ->
    keeps (evalProgramFrom ev statements env result) unwrapsClean.
Proof.
  induction statements as [| s rest IH]; intros result Hres; simpl.
  - apply keeps_ret. exact Hres.
  - eapply keeps_bind; [apply keeps_node | intros r Hr].
    destruct (isError r); [apply keeps_ret; exact Hr |].
    destruct r; try (apply IH; exact Hr).
    apply keeps_ret. apply clean_unwraps. exact Hr.
Qed.

Lemma keeps_evalBlockFrom statements env :
  forall result,
    unwrapsClean result ->
    keeps (evalBlockFrom ev statements env result) unwrapsClean.
Proof.
  induction statements as [| s rest IH]; intros result Hres; simpl.
  - apply keeps_ret. exact Hres.
  - eapply keeps_bind; [apply keeps_node | intros r Hr].
    destruct (isError r); [apply keeps_ret; exact Hr |].
    destruct (isReturn r); [apply keeps_ret; exact Hr |].
    apply IH. exact Hr.
Qed.

Lemma keeps_evalExpressionsFrom exps env :
  forall acc,
    Forall clean acc ->
    keeps (evalExpressionsFrom ev exps env acc) (Forall clean).
Proof.
  induction exps as [| e rest IH]; intros acc Hacc; simpl.
  - apply keeps_ret. exact Hacc.
  - eapply keeps_bind; [apply keeps_expr | intros r Hr].
    apply IH. apply Forall_app. split; [exact Hacc |].
    constructor; [exact Hr | constructor].
Qed.

Lemma keeps_bindParameters fnEnv Parameters args :
  Forall clean args ->
  forall i, keeps (bindParameters fnEnv i Parameters args) (fun _ => True).
Proof.
  intros Hargs. induction Parameters as [| param rest IH]; intros i; simpl.
  - apply keeps_ret. exact I.
  - destruct (args !! i) as [arg |] eqn:Harg; [| apply keeps_panic].
    eapply keeps_bind; [| intros _ _; apply IH].
    apply keeps_Set.
    rewrite Forall_forall in Hargs. apply Hargs.
    eapply list_elem_of_lookup_2, Harg.
Qed.

Lemma keeps_evalFunctionCall tok f args env :
  keeps (evalFunctionCall ev tok f args env) clean.
Proof.
  unfold evalFunctionCall, evalExpressions.
  eapply keeps_bind; [apply keeps_expr | intros fn Hfn].
  destruct (isError fn); [apply keeps_ret; exact Hfn |].
  eapply keeps_bind;
    [apply keeps_evalExpressionsFrom; constructor | intros vs Hvs].
  destruct (onlyArgumentFailed vs).
  { apply keeps_ret. destruct vs as [| v vs']; [exact I |].
    simpl. inversion Hvs; assumption. }
  destruct fn; try (unfold newError; keeps_auto).
  - eapply keeps_bind; [apply keeps_NewEnclosedEnvironment | intros fnEnv _].
    eapply keeps_bind;
      [apply keeps_bindParameters; exact Hvs | intros _ _].
    eapply keeps_bind; [apply keeps_node | intros r Hr].
    destruct (isError r) eqn:He;
      [apply keeps_ret; apply error_clean; exact He |].
    destruct r; apply keeps_ret; first [exact I | exact Hr].
  - apply keeps_callBuiltin.
Qed.

Lemma keeps_evalWhileFrom n c b env :
  forall result,
    unwrapsClean result ->
    keeps (evalWhileFrom ev n c b env result) unwrapsClean.
Proof.
  induction n as [| n IH]; intros result Hres; simpl.
  - apply keeps_diverge.
  - eapply keeps_bind; [apply keeps_expr | intros cond _].
    destruct (negb (isTruthy cond)); [apply keeps_ret; exact Hres |].
    eapply keeps_bind; [apply keeps_node | intros r Hr].
    destruct (isReturn r); [apply keeps_ret; exact Hr |].
    apply IH. exact Hr.
Qed.

End Invariant.

Lemma post_of_clean node r : clean r -> post node r.
Proof.
  intros Hr. split; [apply clean_unwraps, Hr |]. destruct node; auto.
Qed.

Lemma post_of_unwraps node r :
  (forall e, node <> ast.ExprNode e) -> unwrapsClean r -> post node r.
Proof.
  intros Hn Hr. split; [exact Hr |].
  destruct node; auto. exfalso. eapply Hn. reflexivity.
Qed.

Lemma keeps_Eval fuel : forall node env, keeps (Eval fuel node env) (post node).
Proof.
  induction fuel as [| fuel IH]; intros node env; [apply keeps_diverge |].
  destruct node as [p | e | s | b]; simpl.
  - eapply keeps_weaken;
      [apply keeps_evalProgramFrom; [exact IH | exact I] |].
    intros r Hr. apply post_of_unwraps; [discriminate | exact Hr].
  - eapply keeps_weaken with (P := clean); [| apply post_of_clean].
    destruct e; simpl.
    + apply keeps_evalIdentifier.
    + apply keeps_new. intros p. exact I.
    + apply keeps_ret. apply nativeBool_clean.
    + apply keeps_new. intros p. exact I.
    + eapply keeps_bind; [apply keeps_expr, IH | intros r Hr].
      destruct (isError r); [apply keeps_ret; exact Hr |].
      apply keeps_evalPrefixExpression.
    + eapply keeps_bind; [apply keeps_expr, IH | intros l Hl].
      destruct (isError l); [apply keeps_ret; exact Hl |].
      eapply keeps_bind; [apply keeps_expr, IH | intros r Hr].
      destruct (isError r); [apply keeps_ret; exact Hr |].
      apply keeps_evalInfixExpression.
    + apply keeps_evalFunctionCall, IH.
    + unfold evalMemberAccessExpression.
      eapply keeps_bind; [apply keeps_expr, IH | intros o Ho].
      destruct o; try (apply keeps_ret; exact I).
      destruct (Members !! ast.IdentValue Member) as [m |] eqn:Hm;
        apply keeps_ret; [| exact I].
      apply simple_clean. exact (Ho _ _ Hm).
  - eapply keeps_weaken with (P := unwrapsClean);
      [| intros r Hr; apply post_of_unwraps; [discriminate | exact Hr]].
    destruct s; simpl.
    + eapply keeps_bind; [apply keeps_expr, IH | intros v Hv].
      eapply keeps_bind; [apply keeps_Set, Hv | intros _ _].
      apply keeps_ret, clean_unwraps, Hv.
    + unfold evalAssignmentStatement.
      eapply keeps_bind; [apply keeps_expr, IH | intros v Hv].
      eapply keeps_bind; [apply keeps_Set, Hv | intros _ _].
      apply keeps_ret, clean_unwraps, Hv.
    + unfold evalIfStatement.
      eapply keeps_bind; [apply keeps_expr, IH | intros c _].
      destruct (isTruthy c); [apply keeps_node, IH |].
      destruct Alternative; [apply keeps_node, IH | apply keeps_ret; exact I].
    + apply keeps_evalWhileFrom; [exact IH | exact I].
    + unfold evalFunctionDeclaration.
      eapply keeps_bind with (P := fun f => clean f /\ unwrapsClean f);
        [apply keeps_new; intros p; split; exact I | intros f [Hf Hu]].
      eapply keeps_bind; [apply keeps_Set, Hf | intros _ _].
      apply keeps_ret, Hu.
    + unfold evalReturnStatement.
      eapply keeps_bind; [apply keeps_expr, IH | intros v Hv].
      apply keeps_new. intros p. exact Hv.
    + unfold evalWrangleStatement.
      eapply keeps_bind; [apply keeps_loadModule | intros m Hm].
      eapply keeps_bind; [apply keeps_Set, Hm | intros _ _].
      apply keeps_ret, clean_unwraps, Hm.
    + eapply keeps_weaken; [apply keeps_expr, IH | apply clean_unwraps].
  - eapply keeps_weaken;
      [apply keeps_evalBlockFrom; [exact IH | exact I] |].
    intros r Hr. apply post_of_unwraps; [discriminate | exact Hr].
Qed.

(** Whatever is evaluated from a clean store, no variable is bound to a
    return signal afterwards. *)
Lemma return_signal_never_stored fuel node env st r st' :
  storeClean st ->
  Eval fuel node env st = Done r st' ->
  forall e name v st'',
    Get e name st' = Done (v, true) st'' -> isReturn v = false.
Proof.
  intros Hst Hrun e name v st'' Hget.
  destruct (keeps_Eval fuel node env st r st' Hst Hrun) as [Hst' _].
  destruct (keeps_Get e name st' (v, true) st'' Hst' Hget) as [_ Hv].
  destruct v; simpl in Hv; try reflexivity. destruct Hv.
Qed.

Lemma initial_storeClean input : storeClean (initial input).
Proof. intros e env name v He. discriminate He. Qed.

End properties.

(* ================================================================== *)
(** * Properties of the rest of the evaluator *)

Module coverage.
Import object machine evaluator notions further properties.
Open Scope string_scope.

(** ** Strings *)

Lemma append_nil_r (a : string) : a +:+ "" = a.
Proof.
  induction a as [| ch a IH]; [reflexivity |].
  change (String.String ch (a +:+ "") = String.String ch a).
  rewrite IH. reflexivity.
Qed.

Lemma append_assoc (a b c : string) : (a +:+ b) +:+ c = a +:+ (b +:+ c).
Proof.
  induction a as [| ch a IH]; [reflexivity |].
  change (String.String ch ((a +:+ b) +:+ c)
          = String.String ch (a +:+ (b +:+ c))).
  rewrite IH. reflexivity.
Qed.

(** ** Prefix minus *)

Lemma wrap64_neg a : wrap64 (- a) = neg64 a.
Proof.
  unfold neg64. rewrite <- signed_bits. unfold int64.bits. f_equal.
  replace (2^64 - a mod 2^64)%Z with (- (a mod 2^64) + 1 * 2^64)%Z by lia.
  rewrite Z.mod_add by lia.
  rewrite <- (Z.sub_0_l a), <- (Z.sub_0_l (a mod 2^64)).
  symmetry. apply Zminus_mod_idemp_r.
Qed.

Lemma wrap64_neg_neg a : int64.inRange a -> wrap64 (- wrap64 (- a)) = a.
Proof.
  unfold int64.inRange, int64.MinInt64, int64.MaxInt64. intros Ha.
  destruct (Z.eq_dec a (- 2^63)) as [-> | Hne]; [reflexivity |].
  rewrite (wrap64_id (- a));
    [| unfold int64.inRange, int64.MinInt64, int64.MaxInt64; lia].
  rewrite Z.opp_involutive. apply wrap64_id.
  unfold int64.inRange, int64.MinInt64, int64.MaxInt64. lia.
Qed.

(** X1. Prefix minus on an Integer yields a fresh Integer carrying the
    native two's-complement negation, which is again a 64-bit integer;
    the most negative integer negates to itself, and negating twice
    gives the operand back.  On any other non-nil operand it yields the
    error [unknown operator: -TYPE] at the operator's token. *)
Theorem minus_prefix_native :
  forall tok st,
    (forall p v,
       int64.inRange v ->
       evalPrefixExpression tok "-" (Integer p v) st
         = Done (Integer (next st) (neg64 v)) (allocate st)
       /\ int64.inRange (neg64 v)
       /\ neg64 (neg64 v) = v)
    /\ neg64 int64.MinInt64 = int64.MinInt64
    /\ (forall right t,
          Type_ right = Some t -> t <> "INTEGER" ->
          evalPrefixExpression tok "-" right st
            = Done (errorAt tok st ("unknown operator: -" +:+ t))
                   (allocate st)).
Proof.
  intros tok st. split_and!.
  - intros p v Hv. split_and!.
    + unfold evalPrefixExpression, evalMinusPrefixOperator, typeOf, bind,
        ret, new. simpl. rewrite wrap64_neg. reflexivity.
    + rewrite <- wrap64_neg. apply wrap64_range.
    + rewrite <- !wrap64_neg. apply wrap64_neg_neg, Hv.
  - reflexivity.
  - intros right t Ht Hne.
    unfold evalPrefixExpression, evalMinusPrefixOperator, typeOf, bind.
    simpl. rewrite Ht. unfold ret.
    rewrite (eqb_false_of_neq _ _ Hne). simpl.
    unfold newError, new, errorAt, Sprintf. simpl.
    rewrite append_nil_r. reflexivity.
Qed.

Lemma minus_prefix_native_witness :
  evalPrefixExpression opTok "-" (Integer 10 5) st0
    = Done (Integer (next st0) (-5)) (allocate st0)
  /\ evalPrefixExpression opTok "-" TRUE st0
    = Done (errorAt opTok st0 "unknown operator: -BOOLEAN") (allocate st0).
Proof.
  split.
  - apply (proj1 (minus_prefix_native opTok st0) 10%positive 5).
    unfold int64.inRange, int64.MinInt64, int64.MaxInt64. lia.
  - apply (proj2 (proj2 (minus_prefix_native opTok st0)) TRUE "BOOLEAN");
      [reflexivity | discriminate].
Defined.

(** ** Division by zero, and operators the integers do not have *)

(** X2. With a zero right operand, [/] and [%] on Integers end in the
    run-time panic [integer divide by zero] whatever the left operand,
    not in an Error object; and an operator outside the eleven known
    ones yields the error [unknown operator: INTEGER op INTEGER]. *)
Theorem integer_division_by_zero :
  forall tok p q a st,
    evalInfixExpression tok "/" (Integer p a) (Integer q 0) st
      = Panic DivideByZero st
    /\ evalInfixExpression tok "%" (Integer p a) (Integer q 0) st
      = Panic DivideByZero st
    /\ (forall op b,
          ~ In op integerOperators ->
          evalInfixExpression tok op (Integer p a) (Integer q b) st
            = Done (errorAt tok st
                      ("unknown operator: INTEGER " +:+ op +:+ " INTEGER"))
                   (allocate st)).
Proof.
  intros tok p q a st. split_and!.
  - reflexivity.
  - reflexivity.
  - intros op b Hop. unfold integerOperators in Hop. simpl in Hop.
    unfold_infix.
    repeat match goal with
      | |- context [op =? ?s] =>
          rewrite (eqb_false_of_neq op s) by (intros ->; apply Hop; tauto)
      end.
    reflexivity.
Qed.

Lemma integer_division_by_zero_witness :
  evalInfixExpression opTok "^" (Integer 10 2) (Integer 11 3) st0
    = Done (errorAt opTok st0 "unknown operator: INTEGER ^ INTEGER")
           (allocate st0).
Proof.
  apply (proj2 (proj2 (integer_division_by_zero opTok 10 11 2 st0)) "^" 3).
  unfold integerOperators. simpl. intros H.
  repeat (destruct H as [H | H]; [discriminate H |]). exact H.
Defined.

(** ** String concatenation *)

(** X3. [+] on two Strings never fails and yields a fresh String holding
    the concatenation; evaluating [(a + b) + c] and [a + (b + c)] gives
    the same String content (here even the same outcome), and the empty
    string is neutral. *)
Theorem string_concatenation :
  forall tok p q r (a b c : string) st,
    evalInfixExpression tok "+" (String p a) (String q b) st
      = Done (String (next st) (a +:+ b)) (allocate st)
    /\ (let* ab := evalInfixExpression tok "+" (String p a) (String q b) in
        evalInfixExpression tok "+" ab (String r c)) st
      = Done (String (next (allocate st)) (a +:+ (b +:+ c)))
             (allocate (allocate st))
    /\ (let* bc := evalInfixExpression tok "+" (String q b) (String r c) in
        evalInfixExpression tok "+" (String p a) bc) st
      = Done (String (next (allocate st)) (a +:+ (b +:+ c)))
             (allocate (allocate st))
    /\ evalInfixExpression tok "+" (String p a) (String q "") st
      = Done (String (next st) a) (allocate st)
    /\ evalInfixExpression tok "+" (String p "") (String q b) st
      = Done (String (next st) b) (allocate st).
Proof.
  intros tok p q r a b c st. split_and!.
  - reflexivity.
  - unfold_infix. rewrite append_assoc. reflexivity.
  - reflexivity.
  - unfold_infix. rewrite append_nil_r. reflexivity.
  - reflexivity.
Qed.

(** ** Blocks and programs *)

Lemma isReturn_ReturnValue r :
  isReturn r = true -> exists p v, r = ReturnValue p v.
Proof. destruct r; try discriminate. eauto. Qed.

Lemma evalBlockFrom_app ev xs : forall ys env r st,
  stops r = false ->
  evalBlockFrom ev (xs ++ ys) env r st
  = match evalBlockFrom ev xs env r st with
    | Done v st' =>
        if stops v then Done v st' else evalBlockFrom ev ys env v st'
    | other => other
    end.
Proof.
  induction xs as [| s rest IH]; intros ys env r st Hr; simpl.
  - unfold ret. rewrite Hr. reflexivity.
  - unfold bind. destruct (ev (ast.StmtNode s) env st) as [v st1 | |];
      try reflexivity.
    destruct (isError v) eqn:He.
    + unfold ret, stops. rewrite He. reflexivity.
    + destruct (isReturn v) eqn:Hv.
      * unfold ret, stops. rewrite He, Hv. reflexivity.
      * apply IH. unfold stops. rewrite He, Hv. reflexivity.
Qed.

(** X4. Evaluating a block [xs ++ ys] is evaluating [xs] and then, unless
    that ended in an Error or a return signal (which is the block's
    value as it stands, [ys] untouched), evaluating [ys] from the state
    and value [xs] left. *)
Theorem block_composition :
  forall ev xs ys env r st,
    stops r = false ->
    evalBlockFrom ev (xs ++ ys) env r st
    = match evalBlockFrom ev xs env r st with
      | Done v st' =>
          if stops v then Done v st' else evalBlockFrom ev ys env v st'
      | other => other
      end.
Proof. intros ev xs. apply evalBlockFrom_app. Qed.

Lemma block_composition_witness :
  evalBlockFrom (Eval 4) ([exprStmt typeError] ++ [exprStmt (int 1)]) 0 nil
    stEmpty
  = Done (Error 5 typeErrorMessage 10 13 "") (allocate (allocate stEmpty)).
Proof.
  rewrite (block_composition (Eval 4) [exprStmt typeError]
             [exprStmt (int 1)] 0%nat nil stEmpty);
    reflexivity.
Defined.

Lemma evalProgramFrom_block ev ss : forall env r st,
  isReturn r = false ->
  evalProgramFrom ev ss env r st
  = match evalBlockFrom ev ss env r st with
    | Done v st' => Done (unwrapReturn v) st'
    | other => other
    end.
Proof.
  induction ss as [| s rest IH]; intros env r st Hr; simpl.
  - unfold ret. destruct r; try reflexivity. discriminate Hr.
  - unfold bind. destruct (ev (ast.StmtNode s) env st) as [v st1 | |];
      try reflexivity.
    destruct (isError v) eqn:He.
    + unfold ret. destruct v; try discriminate He. reflexivity.
    + destruct (isReturn v) eqn:Hv.
      * destruct (isReturn_ReturnValue v Hv) as (p & x & ->). reflexivity.
      * rewrite <- IH by exact Hv.
        destruct v; try reflexivity. discriminate Hv.
Qed.

(** X5. A program is evaluated like the block of its statements, except
    that a return signal reaching the top is unwrapped to its inner
    value: errors, panics and ordinary values come out the same. *)
Theorem program_is_block_unwrapped :
  forall fuel tok program env st,
    Eval (S fuel) (ast.ProgramNode program) env st
    = match Eval (S fuel)
              (ast.BlockNode (ast.Block tok (ast.Statements program))) env st
      with
      | Done v st' => Done (unwrapReturn v) st'
      | other => other
      end.
Proof.
  intros fuel tok program env st. simpl.
  unfold evalProgram, evalBlockStatement. simpl.
  apply evalProgramFrom_block. reflexivity.
Qed.

(** ** Operand errors *)

(** X6. An Error produced by the operand of a prefix expression, by
    either operand of an infix expression, by the callee of a call or by
    the only argument of a call is the value of the whole expression,
    the same object and in the state that operand left: the operator is
    not applied, and whatever would come after is not evaluated. *)
Theorem operand_errors_forwarded :
  forall fuel env st e st1,
    isError e = true ->
    (forall tok op r,
       Eval fuel (ast.ExprNode r) env st = Done e st1 ->
       Eval (S fuel) (ast.ExprNode (ast.PrefixExpression tok op r)) env st
       = Done e st1)
    /\ (forall tok l op r,
       Eval fuel (ast.ExprNode l) env st = Done e st1 ->
       Eval (S fuel) (ast.ExprNode (ast.InfixExpression tok l op r)) env st
       = Done e st1)
    /\ (forall tok l op r v st',
       Eval fuel (ast.ExprNode l) env st = Done v st' ->
       isError v = false ->
       Eval fuel (ast.ExprNode r) env st' = Done e st1 ->
       Eval (S fuel) (ast.ExprNode (ast.InfixExpression tok l op r)) env st
       = Done e st1)
    /\ (forall tok f args,
       Eval fuel (ast.ExprNode f) env st = Done e st1 ->
       Eval (S fuel) (ast.ExprNode (ast.FunctionCall tok f args)) env st
       = Done e st1)
    /\ (forall tok f arg v st',
       Eval fuel (ast.ExprNode f) env st = Done v st' ->
       isError v = false ->
       Eval fuel (ast.ExprNode arg) env st' = Done e st1 ->
       Eval (S fuel) (ast.ExprNode (ast.FunctionCall tok f [arg])) env st
       = Done e st1).
Proof.
  intros fuel env st e st1 He. split_and!.
  - intros tok op r H. eapply prefix_forwards_error; eassumption.
  - intros tok l op r H. eapply infix_forwards_left_error; eassumption.
  - intros tok l op r v st' Hl Hv Hr.
    eapply infix_forwards_right_error; eassumption.
  - intros tok f args H. eapply call_forwards_callee_error; eassumption.
  - intros tok f arg v st' Hf Hv Harg.
    eapply call_forwards_only_argument_error; eassumption.
Qed.

Lemma operand_errors_forwarded_witness :
  Eval 4 (ast.ExprNode (ast.PrefixExpression opTok "-" typeError)) 0 stEmpty
    = Done (Error 5 typeErrorMessage 10 13 "") (allocate (allocate stEmpty))
  /\ Eval 4 (ast.ExprNode (ast.InfixExpression opTok (int 1) "*" typeError))
       0 stEmpty
    = Done (Error 6 typeErrorMessage 10 13 "")
           (allocate (allocate (allocate stEmpty))).
Proof.
  split.
  - apply (proj1 (operand_errors_forwarded 3 0%nat stEmpty
                    (Error 5 typeErrorMessage 10 13 "") _ eq_refl)).
    reflexivity.
  - apply (proj1 (proj2 (proj2 (operand_errors_forwarded 3 0%nat stEmpty
                                  (Error 6 typeErrorMessage 10 13 "") _
                                  eq_refl)))
             opTok (int 1) "*" typeError (Integer 4 1) (allocate stEmpty));
      reflexivity.
Defined.

(** ** Calls *)



Lemma evalExpressionsFrom_app ev xs : forall ys env acc st,
  evalExpressionsFrom ev (xs ++ ys) env acc st
  = (let* r := evalExpressionsFrom ev xs env acc in
     evalExpressionsFrom ev ys env r) st.
Proof.
  induction xs as [| x rest IH]; intros ys env acc st; simpl.
  - reflexivity.
  - unfold bind.
    destruct (ev (ast.ExprNode x) env st) as [v st1 | |]; try reflexivity.
    rewrite IH. reflexivity.
Qed.

Lemma evalExpressionsFrom_prefix ev exps : forall env acc st vs st',
  evalExpressionsFrom ev exps env acc st = Done vs st' ->
  exists new, vs = (acc ++ new)%list /\ length new = length exps.
Proof.
  induction exps as [| x rest IH]; intros env acc st vs st' H; simpl in H.
  - injection H as <- _. exists []. split; [symmetry; apply app_nil_r | easy].
  - unfold bind in H.
    destruct (ev (ast.ExprNode x) env st) as [v st1 | |]; try discriminate H.
    destruct (IH _ _ _ _ _ H) as (new & -> & Hlen).
    exists (v :: new). split; [rewrite <- app_assoc; reflexivity |].
    simpl. rewrite Hlen. reflexivity.
Qed.

(** X8. [evalExpressions] evaluates a list [xs ++ ys] by evaluating [xs]
    and then [ys], appending to what it has; when it ends there is
    exactly one object per expression, errors included: it has no way
    of stopping early. *)
Theorem evalExpressions_one_per_expression :
  forall ev env st,
    (forall xs ys acc,
       evalExpressionsFrom ev (xs ++ ys) env acc st
       = (let* r := evalExpressionsFrom ev xs env acc in
          evalExpressionsFrom ev ys env r) st)
    /\ (forall exps vs st',
       evalExpressions ev exps env st = Done vs st' ->
       length vs = length exps).
Proof.
  intros ev env st. split.
  - intros xs ys acc. apply evalExpressionsFrom_app.
  - intros exps vs st' H.
    destruct (evalExpressionsFrom_prefix _ _ _ _ _ _ _ H) as (new & -> & Hl).
    exact Hl.
Qed.

Lemma evalExpressions_one_per_expression_witness :
  length [Error 6 typeErrorMessage 10 13 ""; Integer 7 7] = 2%nat.
Proof.
  apply (proj2 (evalExpressions_one_per_expression (Eval 3) 0%nat stSecond)
           [typeError; int 7] _
           (allocate (allocate (allocate stSecond)))).
  reflexivity.
Defined.

Lemma bindParameters_surplus fnEnv ps : forall i args extra st,
  (i + length ps <= length args)%nat ->
  bindParameters fnEnv i ps (args ++ extra) st
  = bindParameters fnEnv i ps args st.
Proof.
  induction ps as [| param rest IH]; intros i args extra st Hi; simpl.
  - reflexivity.
  - simpl in Hi. rewrite lookup_app_l by lia.
    destruct (args !! i) as [arg |] eqn:Harg.
    + unfold bind. destruct (Set_ fnEnv (ast.IdentValue param) arg st);
        try reflexivity.
      apply IH. lia.
    + apply lookup_ge_None in Harg. lia.
Qed.

(** X9. Arity is not checked in the other direction either: when there
    are at least as many arguments as parameters, binding uses the first
    ones and any further arguments make no difference to it. *)
Theorem surplus_arguments_ignored :
  forall fnEnv Parameters args extra st,
    (length Parameters <= length args)%nat ->
    bindParameters fnEnv 0 Parameters (args ++ extra) st
    = bindParameters fnEnv 0 Parameters args st.
Proof.
  intros fnEnv Parameters args extra st H.
  apply bindParameters_surplus. simpl. exact H.
Qed.

Lemma surplus_arguments_ignored_witness :
  bindParameters 0 0 [ident "a"] ([Integer 9 1] ++ [Integer 10 2]) stFirst
  = bindParameters 0 0 [ident "a"] [Integer 9 1] stFirst.
Proof.
  apply (surplus_arguments_ignored 0%nat [ident "a"] [Integer 9 1]
           [Integer 10 2] stFirst).
  simpl. lia.
Defined.

(** ** The io builtins *)

Lemma preachAll_written args : forall out st,
  preached args = Some out ->
  preachAll args st = Done tt (written st out).
Proof.
  induction args as [| arg rest IH]; intros out st H; simpl in H.
  - injection H as <-. unfold written. simpl.
    rewrite append_nil_r. destruct st; reflexivity.
  - destruct (Inspect arg) as [s |] eqn:Hs; [| discriminate H].
    destruct (preached rest) as [out' |] eqn:Hrest; [| discriminate H].
    injection H as <-. simpl. unfold bind, inspect. rewrite Hs.
    unfold ret, Println, Print. rewrite (IH out') by reflexivity.
    unfold written. simpl. rewrite !append_assoc. reflexivity.
Qed.

(** X10. [io.preach] writes the rendering of each argument, in order,
    each followed by a newline, after what standard output already
    holds; it returns [NULL] and touches neither standard input nor the
    environments nor the allocation counter.  With no arguments it
    writes nothing. *)
Theorem preach_writes_lines :
  forall args out st,
    preached args = Some out ->
    callBuiltin preach args st = Done NULL (written st out).
Proof.
  intros args out st H. simpl. unfold bind.
  rewrite (preachAll_written args out st H). reflexivity.
Qed.

Lemma preach_writes_lines_witness :
  callBuiltin preach [Integer 9 (-42); TRUE; String 10 "beef"; NULL] st0
  = Done NULL
      (written st0
         ("-42" +:+ newline +:+ "true" +:+ newline +:+ "beef" +:+ newline
            +:+ "null" +:+ newline)).
Proof.
  apply (preach_writes_lines [Integer 9 (-42); TRUE; String 10 "beef"; NULL]).
  reflexivity.
Defined.



(** ** Modules *)



(** ** Binding and reading names *)

Lemma resolve_bound d es : forall e name e',
  resolve d es e name = Some e' ->
  exists env', es !! e' = Some env' /\ is_Some (store env' !! name).
Proof.
  induction d as [| d IH]; intros e name e' H; simpl in H; [discriminate |].
  destruct (es !! e) as [env |] eqn:He; [| discriminate].
  destruct (store env !! name) as [v |] eqn:Hv.
  - injection H as <-. exists env. split; [exact He | rewrite Hv; eauto].
  - destruct (outer env) as [parent |]; [| discriminate].
    eapply IH, H.
Qed.

Lemma resolve_after_bindIn d es : forall e name e' val,
  resolve d es e name = Some e' ->
  resolve d (bindIn es e' name val) e name = Some e'.
Proof.
  induction d as [| d IH]; intros e name e' val H; simpl in *;
    [discriminate |].
  destruct (resolve_bound (S d) es e name e' H) as (env' & He' & _).
  destruct (es !! e) as [env |] eqn:He; [| discriminate].
  unfold bindIn at 1. rewrite He'.
  destruct (decide (e = e')) as [-> | Hne].
  - rewrite list_lookup_insert_eq by (eapply lookup_lt_Some, He').
    simpl. rewrite lookup_insert_eq. reflexivity.
  - rewrite list_lookup_insert_ne by congruence. rewrite He.
    destruct (store env !! name) as [v |] eqn:Hv.
    + injection H as ->. contradiction.
    + destruct (outer env) as [parent |]; [| discriminate].
      exact (IH parent name e' val H).
Qed.

Lemma Set_then_Get e name val st :
  (e < length (envs st))%nat ->
  exists st',
    Set_ e name val st = Done tt st'
    /\ Get e name st' = Done (val, true) st'
    /\ length (envs st') = length (envs st)
    /\ next st' = next st.
Proof.
  intros He. unfold Set_.
  destruct (lookup_lt_is_Some_2 (envs st) e He) as [env Henv].
  rewrite Henv. eexists. split; [reflexivity |].
  split; [| split; [simpl; apply bindIn_length | reflexivity]].
  unfold Get. simpl. rewrite bindIn_length.
  destruct (resolve (length (envs st)) (envs st) e name) as [e' |] eqn:Hres.
  - destruct (resolve_bound _ _ _ _ _ Hres) as (env' & He' & _).
    assert (Hsome : is_Some (bindIn (envs st) e' name val !! e)).
    { apply lookup_lt_is_Some. rewrite bindIn_length. exact He. }
    destruct Hsome as [x ->].
    rewrite (resolve_after_bindIn _ _ _ _ _ val Hres).
    unfold bindIn. rewrite He'.
    rewrite list_lookup_insert_eq by (eapply lookup_lt_Some, He').
    simpl. rewrite lookup_insert_eq. reflexivity.
  - unfold bindIn. rewrite Henv.
    rewrite list_lookup_insert_eq by exact He.
    destruct (length (envs st)) as [| d] eqn:Hlen; [lia |].
    simpl. rewrite list_lookup_insert_eq by lia.
    simpl. rewrite lookup_insert_eq.
    rewrite list_lookup_insert_eq by lia.
    simpl. rewrite lookup_insert_eq. reflexivity.
Qed.

Lemma read_bound id env st val :
  Get env (ast.IdentValue id) st = Done (val, true) st ->
  forall k, Eval (S k) (ast.ExprNode (ast.Ident id)) env st = Done val st.
Proof.
  intros H k. simpl. unfold evalIdentifier, bind. rewrite H. reflexivity.
Qed.

(** X13. A declaration [prep x = e] and an assignment [x = e] yield the
    value of [e], and reading [x] right afterwards in the same
    environment yields that very object (no copy is made) without
    changing the state.  Reading a name that is visible nowhere in the
    chain yields the error [identifier not found: x] at the identifier's
    own token, never nil. *)
Theorem declare_then_read :
  forall fuel env st,
    (forall tok x e v st1,
       Eval fuel (ast.ExprNode e) env st = Done v st1 ->
       (env < length (envs st1))%nat ->
       exists st2,
         Eval (S fuel) (ast.StmtNode (ast.VariableDeclaration tok x e)) env st
           = Done v st2
         /\ Eval (S fuel) (ast.StmtNode (ast.AssignmentStatement tok x e))
              env st
            = Done v st2
         /\ forall k,
              Eval (S k) (ast.ExprNode (ast.Ident x)) env st2 = Done v st2)
    /\ (forall id,
          (env < length (envs st))%nat ->
          visible st env (ast.IdentValue id) = false ->
          Eval (S fuel) (ast.ExprNode (ast.Ident id)) env st
          = Done (errorAt (ast.IdentToken id) st
                    ("identifier not found: " +:+ ast.IdentValue id))
                 (allocate st)).
Proof.
  intros fuel env st. split.
  - intros tok x e v st1 He Henv.
    destruct (Set_then_Get env (ast.IdentValue x) v st1 Henv)
      as (st2 & Hset & Hget & _).
    exists st2. split_and!.
    + simpl. unfold bind. rewrite He, Hset. reflexivity.
    + simpl. unfold evalAssignmentStatement, bind. rewrite He, Hset.
      reflexivity.
    + apply read_bound, Hget.
  - intros id Henv Hvis. simpl. unfold evalIdentifier, bind, Get.
    destruct (lookup_lt_is_Some_2 (envs st) env Henv) as [x ->].
    unfold visible in Hvis.
    destruct (resolve _ _ _ _); [discriminate Hvis |].
    simpl. unfold newError, new, errorAt, Sprintf. simpl.
    rewrite append_nil_r. reflexivity.
Qed.

Lemma declare_then_read_witness :
  (exists st2,
     Eval 3 (ast.StmtNode (ast.VariableDeclaration opTok (ident "x") (int 7)))
       0 stEmpty
     = Done (Integer 4 7) st2
     /\ Eval 3 (ast.StmtNode (ast.AssignmentStatement opTok (ident "x")
                                (int 7))) 0 stEmpty
        = Done (Integer 4 7) st2
     /\ forall k,
          Eval (S k) (ast.ExprNode (var "x")) 0 st2 = Done (Integer 4 7) st2)
  /\ Eval 3 (ast.ExprNode (var "y")) 0 stEmpty
     = Done (Error 4 "identifier not found: y" 1 1 "") (allocate stEmpty).
Proof.
  split.
  - apply (proj1 (declare_then_read 2 0%nat stEmpty) opTok (ident "x")
             (int 7) (Integer 4 7) (allocate stEmpty));
      [reflexivity | simpl; lia].
  - apply (proj2 (declare_then_read 2 0%nat stEmpty) (ident "y"));
      [simpl; lia | reflexivity].
Defined.

(** X14. A function declaration yields a fresh Function that carries
    the declaration's parameters and body and captures the very
    environment it is declared in, and binds it under its name at once:
    the name reads back as that function before any body has run, which
    is what lets a function call itself. *)
Theorem function_declaration_binds_closure :
  forall fuel tok name ps body env st,
    (env < length (envs st))%nat ->
    exists st',
      Eval (S fuel)
        (ast.StmtNode (ast.FunctionDeclaration tok name ps body)) env st
      = Done (Function (next st) ps body env) st'
      /\ (forall k,
            Eval (S k) (ast.ExprNode (ast.Ident name)) env st'
            = Done (Function (next st) ps body env) st')
      /\ length (envs st') = length (envs st).
Proof.
  intros fuel tok name ps body env st Henv.
  destruct (Set_then_Get env (ast.IdentValue name)
              (Function (next st) ps body env) (allocate st) Henv)
    as (st' & Hset & Hget & Hlen & _).
  exists st'. split_and!.
  - simpl. unfold evalFunctionDeclaration, bind, new. rewrite Hset.
    reflexivity.
  - apply read_bound, Hget.
  - exact Hlen.
Qed.

Lemma function_declaration_binds_closure_witness :
  exists st',
    Eval 1 (ast.StmtNode
              (ast.FunctionDeclaration opTok (ident "f") [ident "a"]
                 (block [serve (var "a")]))) 0 stEmpty
    = Done (Function 4 [ident "a"] (block [serve (var "a")]) 0) st'
    /\ (forall k,
          Eval (S k) (ast.ExprNode (var "f")) 0 st'
          = Done (Function 4 [ident "a"] (block [serve (var "a")]) 0) st')
    /\ length (envs st') = 1%nat.
Proof.
  apply (function_declaration_binds_closure 0 opTok (ident "f") [ident "a"]
           (block [serve (var "a")]) 0%nat stEmpty).
  simpl. lia.
Defined.

(** X15. Importing a module binds it under its name.  For any name other
    than [io] the module is empty, no error is raised, and every member
    access on it reads as [NULL]; for [io] the members [preach] and
    [input] read as the two builtins and any other member as [NULL]. *)
Theorem wrangle_binds_module :
  forall fuel tok name env st,
    (env < length (envs st))%nat ->
    (ast.IdentValue name <> "io" ->
     exists st',
       Eval (S fuel) (ast.StmtNode (ast.WrangleStatement tok name)) env st
       = Done (Module_ (next st) (ast.IdentValue name) ∅) st'
       /\ forall k tok' m,
            Eval (S (S k))
              (ast.ExprNode
                 (ast.MemberAccessExpression tok' (ast.Ident name) m)) env st'
            = Done NULL st')
    /\ (ast.IdentValue name = "io" ->
        exists mod_ st',
          Eval (S fuel) (ast.StmtNode (ast.WrangleStatement tok name)) env st
          = Done mod_ st'
          /\ forall k tok' m,
               Eval (S (S k))
                 (ast.ExprNode
                    (ast.MemberAccessExpression tok' (ast.Ident name) m))
                 env st'
               = Done (if ast.IdentValue m =? "preach"
                       then Builtin (Pos.succ (next st)) preach
                       else if ast.IdentValue m =? "input"
                       then Builtin (Pos.succ (Pos.succ (next st))) input
                       else NULL) st').
Proof.
  intros fuel tok name env st Henv. split.
  - intros Hne.
    destruct (Set_then_Get env (ast.IdentValue name)
                (Module_ (next st) (ast.IdentValue name) ∅) (allocate st) Henv)
      as (st' & Hset & Hget & _).
    exists st'. split.
    + simpl. unfold evalWrangleStatement, loadModule, bind.
      rewrite (eqb_false_of_neq _ _ Hne). unfold new. rewrite Hset.
      reflexivity.
    + intros k tok' m.
      change (evalMemberAccessExpression (Eval (S k)) (ast.Ident name) m env
                st' = Done NULL st').
      unfold evalMemberAccessExpression, bind.
      rewrite (read_bound name env st' _ Hget k).
      rewrite lookup_empty. reflexivity.
  - intros Hio.
    set (mod_ := Module_ (next st) "io"
                   (<["input" := Builtin (Pos.succ (Pos.succ (next st))) input]>
                      (<["preach" := Builtin (Pos.succ (next st)) preach]> ∅))).
    destruct (Set_then_Get env (ast.IdentValue name) mod_
                (allocate (allocate (allocate st))) Henv)
      as (st' & Hset & Hget & _).
    exists mod_, st'. split.
    + simpl. unfold evalWrangleStatement, loadModule, bind. rewrite Hio.
      simpl. unfold bind, new, ret. simpl.
      rewrite Hio in Hset. fold mod_. rewrite Hset. reflexivity.
    + intros k tok' m.
      change (evalMemberAccessExpression (Eval (S k)) (ast.Ident name) m env
                st' = Done (if ast.IdentValue m =? "preach"
                       then Builtin (Pos.succ (next st)) preach
                       else if ast.IdentValue m =? "input"
                       then Builtin (Pos.succ (Pos.succ (next st))) input
                       else NULL) st').
      unfold evalMemberAccessExpression, bind.
      rewrite (read_bound name env st' _ Hget k). unfold mod_.
      destruct (String.eqb_spec (ast.IdentValue m) "preach") as [-> | Hp].
      { rewrite lookup_insert_ne by discriminate.
        rewrite lookup_insert_eq. reflexivity. }
      destruct (String.eqb_spec (ast.IdentValue m) "input") as [-> | Hi].
      { rewrite lookup_insert_eq. reflexivity. }
      rewrite lookup_insert_ne by congruence.
      rewrite lookup_insert_ne by congruence.
      rewrite lookup_empty. reflexivity.
Qed.

Lemma wrangle_binds_module_witness :
  exists st',
    Eval 1 (ast.StmtNode (ast.WrangleStatement opTok (ident "fs"))) 0 stEmpty
    = Done (Module_ 4 "fs" ∅) st'
    /\ forall k tok' m,
         Eval (S (S k))
           (ast.ExprNode (ast.MemberAccessExpression tok' (var "fs") m))
           0 st'
         = Done NULL st'.
Proof.
  apply (proj1 (wrangle_binds_module 0 opTok (ident "fs") 0%nat stEmpty
                  ltac:(simpl; lia))).
  discriminate.
Defined.

(** ** The entry point *)

Lemma printParserErrors_written errors : forall st,
  main.printParserErrors errors st
  = Done tt (written st (parserErrorLines errors)).
Proof.
  induction errors as [| msg rest IH]; intros st; simpl.
  - unfold ret, written. rewrite append_nil_r. destruct st; reflexivity.
  - unfold bind, Print. rewrite IH. unfold written, Sprintf. simpl.
    rewrite append_nil_r, !append_assoc. reflexivity.
Qed.

(** X16. When the parser reported errors, [main] prints the heading
    [Parser errors:] and each message on its own indented line, ends
    with status 1, and evaluates nothing: this holds for every program
    and needs no fuel. *)
Theorem main_refuses_parser_errors :
  forall fuel errors program input,
    errors <> [] ->
    main.main fuel errors program input
    = main.Exited 1
        ("Parser errors:" +:+ newline +:+ parserErrorLines errors).
Proof.
  intros fuel errors program input Hne.
  unfold main.main, main.interpret.
  destruct errors as [| msg rest]; [contradiction |].
  replace (0 <? length (msg :: rest))%nat with true by reflexivity.
  unfold bind, Println, Print.
  rewrite printParserErrors_written. reflexivity.
Qed.

Lemma main_refuses_parser_errors_witness :
  main.main 0 ["expected next token to be :, got EOF instead"] entryFails []
  = main.Exited 1
      ("Parser errors:" +:+ newline
         +:+ "  expected next token to be :, got EOF instead" +:+ newline).
Proof.
  apply (main_refuses_parser_errors 0
           ["expected next token to be :, got EOF instead"] entryFails []).
  discriminate.
Defined.

(** X17. After a parse without errors, how [main] ends depends only on
    what [ChurchOfBeef] is bound to once the program has been evaluated:
    unbound, it prints that no entry point was found and ends with
    status 1; bound to something that is not a function, it prints so
    and ends with status 1; bound to a function, it runs that function's
    body in a new environment enclosed by the function's own and ends
    with status 0 whatever value the body yields.  The value the
    program itself evaluated to is not consulted. *)
Theorem main_entry_point :
  forall fuel program input r st1 v ok,
    Eval fuel (ast.ProgramNode program) 0 (startState input) = Done r st1 ->
    Get 0 "ChurchOfBeef" st1 = Done (v, ok) st1 ->
    (ok = false ->
     main.main fuel [] program input
     = main.Exited 1
         (stdout st1
            +:+ "Error: no ChurchOfBeef() entry point function found"
            +:+ newline))
    /\ (ok = true -> (forall p ps body fenv, v <> Function p ps body fenv) ->
        main.main fuel [] program input
        = main.Exited 1
            (stdout st1 +:+ "Error: ChurchOfBeef is not a function"
               +:+ newline))
    /\ (forall p ps body fenv, ok = true -> v = Function p ps body fenv ->
        main.main fuel [] program input
        = exitAfter
            (Eval fuel (ast.BlockNode body) (length (envs st1))
               (mkState (next st1)
                  (envs st1 ++ [mkEnvironment ∅ (Some fenv)])
                  (stdout st1) (stdin st1)))).
Proof.
  intros fuel program input r st1 v ok Hrun Hget.
  unfold main.main, main.interpret. simpl.
  unfold bind, NewEnvironment. simpl.
  change (mkState first_free [mkEnvironment ∅ None] "" input)
    with (startState input).
  rewrite Hrun, Hget. simpl. split_and!.
  - intros ->. reflexivity.
  - intros -> Hv. destruct v; try reflexivity.
    exfalso. eapply Hv. reflexivity.
  - intros p ps body fenv -> ->. simpl. unfold NewEnclosedEnvironment.
    destruct (Eval fuel (ast.BlockNode body) _ _); reflexivity.
Qed.

Lemma main_entry_point_witness :
  main.main 3 [] (ast.mkProgram [exprStmt (int 1)]) []
  = main.Exited 1
      ("Error: no ChurchOfBeef() entry point function found" +:+ newline).
Proof.
  apply (proj1 (main_entry_point 3 (ast.mkProgram [exprStmt (int 1)]) []
                  (Integer 4 1) (allocate (startState [])) nil false
                  eq_refl eq_refl)).
  reflexivity.
Defined.

(** ** What evaluation never undoes *)

Lemma extends_refl st : extends st st.
Proof.
  unfold extends. split_and!.
  - reflexivity.
  - exists "". symmetry. apply append_nil_r.
  - exists 0%nat. reflexivity.
  - reflexivity.
  - intros e env He. exists env. auto.
Qed.

Lemma extends_trans st1 st2 st3 :
  extends st1 st2 -> extends st2 st3 -> extends st1 st3.
Proof.
  intros (Hn1 & [o1 Ho1] & [k1 Hk1] & Hl1 & He1)
         (Hn2 & [o2 Ho2] & [k2 Hk2] & Hl2 & He2).
  unfold extends. split_and!.
  - etransitivity; eassumption.
  - exists (o1 +:+ o2). rewrite Ho2, Ho1. apply append_assoc.
  - exists (k1 + k2)%nat. rewrite Hk2, Hk1. apply drop_drop.
  - lia.
  - intros e env He.
    destruct (He1 e env He) as (env2 & He2' & Ho & Hs).
    destruct (He2 e env2 He2') as (env3 & He3 & Ho' & Hs').
    exists env3. split_and!; [exact He3 | congruence | auto].
Qed.

Lemma orderly_ret {A} (a : A) : orderly (ret a).
Proof. intros st. apply extends_refl. Qed.

Lemma orderly_panic {A} r : orderly (@panic A r).
Proof. intros st. apply extends_refl. Qed.

Lemma orderly_diverge {A} : orderly (@diverge A).
Proof. intros st. exact I. Qed.

Lemma orderly_bind {A B} (m : M A) (k : A -> M B) :
  orderly m -> (forall a, orderly (k a)) -> orderly (bind m k).
Proof.
  intros Hm Hk st. unfold bind. specialize (Hm st).
  destruct (m st) as [a st1 | r st1 |]; [| exact Hm | exact I].
  specialize (Hk a st1).
  destruct (k a st1); try exact I; eapply extends_trans; eassumption.
Qed.

Lemma extends_allocate st : extends st (allocate st).
Proof.
  destruct (extends_refl st) as (_ & Ho & Hi & Hl & He).
  unfold extends. split_and!; try assumption. simpl. lia.
Qed.

Lemma orderly_new mk : orderly (new mk).
Proof. intros st. apply extends_allocate. Qed.

Lemma orderly_typeOf o : orderly (typeOf o).
Proof.
  unfold typeOf. destruct (Type_ o); [apply orderly_ret | apply orderly_panic].
Qed.

Lemma orderly_inspect o : orderly (inspect o).
Proof.
  unfold inspect.
  destruct (Inspect o); [apply orderly_ret | apply orderly_panic].
Qed.

Lemma orderly_Print s : orderly (Print s).
Proof.
  intros st. simpl.
  destruct (extends_refl st) as (Hn & _ & Hi & Hl & He).
  unfold extends. split_and!; try assumption. simpl. eauto.
Qed.

Lemma orderly_ScanLine : orderly ScanLine.
Proof.
  intros st. unfold ScanLine.
  destruct (stdin st) as [| l rest] eqn:Hin; [apply extends_refl |].
  destruct (extends_refl st) as (Hn & Ho & _ & Hl & He).
  unfold extends. split_and!; try assumption.
  simpl. exists 1%nat. rewrite Hin. reflexivity.
Qed.

Lemma extends_snoc st env :
  extends st (mkState (next st) (envs st ++ [env]) (stdout st) (stdin st)).
Proof.
  destruct (extends_refl st) as (Hn & Ho & Hi & _ & _).
  unfold extends. split_and!; try assumption.
  - simpl. rewrite length_app. lia.
  - intros e env0 He. exists env0. split_and!; [| reflexivity | auto].
    simpl. apply lookup_app_l_Some, He.
Qed.

Lemma orderly_NewEnvironment : orderly NewEnvironment.
Proof. intros st. apply extends_snoc. Qed.

Lemma orderly_NewEnclosedEnvironment parent :
  orderly (NewEnclosedEnvironment parent).
Proof. intros st. apply extends_snoc. Qed.

Lemma orderly_Get e name : orderly (Get e name).
Proof.
  intros st. unfold Get.
  destruct (envs st !! e); [| apply extends_refl].
  destruct (resolve _ _ _ _) as [e' |]; [| apply extends_refl].
  destruct (envs st !! e') as [env' |]; [| apply extends_refl].
  destruct (store env' !! name); apply extends_refl.
Qed.

Lemma extends_bindIn st target name val :
  extends st (mkState (next st) (bindIn (envs st) target name val)
                      (stdout st) (stdin st)).
Proof.
  destruct (extends_refl st) as (Hn & Ho & Hi & _ & _).
  unfold extends. split_and!; try assumption.
  - simpl. rewrite bindIn_length. reflexivity.
  - intros e env He. simpl. unfold bindIn.
    destruct (envs st !! target) as [tenv |] eqn:Ht;
      [| exists env; auto].
    destruct (decide (e = target)) as [-> | Hne].
    + rewrite list_lookup_insert_eq by (eapply lookup_lt_Some, Ht).
      rewrite Ht in He. injection He as <-.
      eexists. split_and!; [reflexivity | reflexivity |].
      intros n Hn'. simpl.
      destruct (decide (n = name)) as [-> | Hn''].
      * rewrite lookup_insert_eq. eauto.
      * rewrite lookup_insert_ne by congruence. exact Hn'.
    + rewrite list_lookup_insert_ne by congruence.
      exists env. auto.
Qed.

Lemma orderly_Set e name val : orderly (Set_ e name val).
Proof.
  intros st. unfold Set_.
  destruct (envs st !! e); [apply extends_bindIn | apply extends_refl].
Qed.

Ltac orderly_auto :=
  repeat first
    [ apply orderly_ret
    | apply orderly_panic
    | apply orderly_diverge
    | apply orderly_new
    | apply orderly_typeOf
    | apply orderly_inspect
    | apply orderly_Print
    | apply orderly_ScanLine
    | apply orderly_NewEnvironment
    | apply orderly_NewEnclosedEnvironment
    | apply orderly_Get
    | apply orderly_Set
    | assumption
    | apply orderly_bind; [| intros ?]
    | match goal with
      | |- orderly (if ?b then _ else _) => destruct b
      | |- orderly (match ?x with _ => _ end) => destruct x
      end ].

Lemma orderly_evalPrefixExpression tok op right :
  orderly (evalPrefixExpression tok op right).
Proof.
  unfold evalPrefixExpression, evalMinusPrefixOperator, newError.
  orderly_auto.
Qed.

Lemma orderly_evalInfixExpression tok op left right :
  orderly (evalInfixExpression tok op left right).
Proof.
  unfold evalInfixExpression, bothOfType, evalIntegerInfixExpression,
    evalStringInfixExpression, unknownOperator, newError.
  orderly_auto.
Qed.

Lemma orderly_preachAll args : orderly (preachAll args).
Proof.
  induction args as [| a rest IH]; simpl; unfold Println; orderly_auto.
Qed.

Lemma orderly_callBuiltin fn args : orderly (callBuiltin fn args).
Proof.
  destruct fn; simpl.
  - apply orderly_bind; [apply orderly_preachAll | intros _; orderly_auto].
  - orderly_auto.
Qed.

Lemma orderly_loadModule name : orderly (loadModule name).
Proof. unfold loadModule, createIOModule. orderly_auto. Qed.

Lemma orderly_bindParameters fnEnv ps args :
  forall i, orderly (bindParameters fnEnv i ps args).
Proof.
  induction ps as [| param rest IH]; intros i; simpl; orderly_auto.
  apply IH.
Qed.

Section Orderly.

Variable ev : ast.Node -> EnvPtr -> M Object.
Hypothesis Hev : forall node env, orderly (ev node env).

Lemma orderly_evalProgramFrom ss env :
  forall result, orderly (evalProgramFrom ev ss env result).
Proof.
  induction ss as [| s rest IH]; intros result; simpl.
  - apply orderly_ret.
  - apply orderly_bind; [apply Hev | intros r].
    destruct (isError r); [apply orderly_ret |].
    destruct r; first [apply IH | apply orderly_ret].
Qed.

Lemma orderly_evalBlockFrom ss env :
  forall result, orderly (evalBlockFrom ev ss env result).
Proof.
  induction ss as [| s rest IH]; intros result; simpl.
  - apply orderly_ret.
  - apply orderly_bind; [apply Hev | intros r].
    destruct (isError r); [apply orderly_ret |].
    destruct (isReturn r); [apply orderly_ret | apply IH].
Qed.

Lemma orderly_evalExpressionsFrom exps env :
  forall acc, orderly (evalExpressionsFrom ev exps env acc).
Proof.
  induction exps as [| e rest IH]; intros acc; simpl.
  - apply orderly_ret.
  - apply orderly_bind; [apply Hev | intros r; apply IH].
Qed.

Lemma orderly_evalFunctionCall tok f args env :
  orderly (evalFunctionCall ev tok f args env).
Proof.
  unfold evalFunctionCall, evalExpressions, newError.
  apply orderly_bind; [apply Hev | intros fn].
  destruct (isError fn); [apply orderly_ret |].
  apply orderly_bind; [apply orderly_evalExpressionsFrom | intros vs].
  destruct (onlyArgumentFailed vs); [apply orderly_ret |].
  destruct fn; orderly_auto;
    first [ apply orderly_bindParameters | apply Hev
          | apply orderly_callBuiltin | idtac ].
  all: orderly_auto.
Qed.

Lemma orderly_evalWhileFrom n c b env :
  forall result, orderly (evalWhileFrom ev n c b env result).
Proof.
  induction n as [| n IH]; intros result; simpl.
  - apply orderly_diverge.
  - apply orderly_bind; [apply Hev | intros cond].
    destruct (negb (isTruthy cond)); [apply orderly_ret |].
    apply orderly_bind; [apply Hev | intros r].
    destruct (isReturn r); [apply orderly_ret | apply IH].
Qed.

End Orderly.

Lemma orderly_Eval fuel : forall node env, orderly (Eval fuel node env).
Proof.
  induction fuel as [| fuel IH]; intros node env; [apply orderly_diverge |].
  destruct node as [p | e | s | b]; simpl.
  - apply orderly_evalProgramFrom, IH.
  - destruct e; simpl.
    + unfold evalIdentifier, newError. orderly_auto.
    + apply orderly_new.
    + apply orderly_ret.
    + apply orderly_new.
    + apply orderly_bind; [apply IH | intros r].
      destruct (isError r);
        [apply orderly_ret | apply orderly_evalPrefixExpression].
    + apply orderly_bind; [apply IH | intros l].
      destruct (isError l); [apply orderly_ret |].
      apply orderly_bind; [apply IH | intros r].
      destruct (isError r);
        [apply orderly_ret | apply orderly_evalInfixExpression].
    + apply orderly_evalFunctionCall, IH.
    + unfold evalMemberAccessExpression.
      apply orderly_bind; [apply IH | intros o]. orderly_auto.
  - destruct s; simpl.
    + apply orderly_bind; [apply IH | intros v]. orderly_auto.
    + unfold evalAssignmentStatement.
      apply orderly_bind; [apply IH | intros v]. orderly_auto.
    + unfold evalIfStatement.
      apply orderly_bind; [apply IH | intros c].
      destruct (isTruthy c); [apply IH |].
      destruct Alternative; [apply IH | apply orderly_ret].
    + apply orderly_evalWhileFrom, IH.
    + unfold evalFunctionDeclaration. orderly_auto.
    + unfold evalReturnStatement.
      apply orderly_bind; [apply IH | intros v]. orderly_auto.
    + unfold evalWrangleStatement.
      apply orderly_bind; [apply orderly_loadModule | intros m].
      orderly_auto.
    + apply IH.
  - apply orderly_evalBlockFrom, IH.
Qed.

(** X18. However an evaluation ends, with a value or with a panic, it
    has only added to the state: standard output kept everything
    written before, standard input was only consumed from the front,
    every environment is still there with the same parent and with
    every name it had bound still bound, and the allocation counter did
    not go back, so no object address is handed out twice. *)
Theorem evaluation_only_extends :
  forall fuel node env st,
    match Eval fuel node env st with
    | Done _ st' => extends st st'
    | Panic _ st' => extends st st'
    | OutOfFuel => True
    end.
Proof. intros fuel node env st. apply orderly_Eval. Qed.

(** ** The only run-time failures *)

Lemma plain_sound v : plain v = true -> sound v.
Proof. destruct v; simpl; intros H; try discriminate H; exact I. Qed.

Lemma sound_result v : sound v -> soundResult v.
Proof. destruct v; simpl; tauto. Qed.

Lemma error_sound v : isError v = true -> sound v.
Proof. destruct v; simpl; intros H; try discriminate H; exact I. Qed.

Lemma sound_Type v : sound v -> exists t, Type_ v = Some t.
Proof. destruct v; simpl; intros H; try destruct H; eauto. Qed.

Lemma sound_Inspect v : sound v -> exists s, Inspect v = Some s.
Proof.
  destruct v; simpl; intros H; try destruct H; eauto.
  repeat match goal with |- context [if ?b then _ else _] => destruct b end;
    eauto.
Qed.

Lemma safely_ret n {A} (a : A) (Q : A -> Prop) : Q a -> safely n (ret a) Q.
Proof. intros HQ st Hst Hn. simpl. auto. Qed.

Lemma safely_panic n {A} r (Q : A -> Prop) :
  benign r -> safely n (panic r) Q.
Proof. intros Hr st Hst Hn. exact Hr. Qed.

Lemma safely_diverge n {A} (Q : A -> Prop) : safely n diverge Q.
Proof. intros st Hst Hn. exact I. Qed.

Lemma safely_bind n {A B} (m : M A) (k : A -> M B) P Q :
  safely n m P -> (forall a, P a -> safely n (k a) Q) ->
  safely n (bind m k) Q.
Proof.
  intros Hm Hk st Hst Hn. unfold bind. specialize (Hm st Hst Hn).
  destruct (m st) as [a st1 | r st1 |]; [| exact Hm | exact I].
  destruct Hm as (Hst1 & Hlen & HP).
  specialize (Hk a HP st1 Hst1 ltac:(lia)).
  destruct (k a st1) as [b st2 | |]; [| exact Hk | exact I].
  destruct Hk as (Hst2 & Hlen2 & HQ). split_and!; [assumption | lia | assumption].
Qed.

Lemma safely_weaken n {A} (m : M A) (P Q : A -> Prop) :
  safely n m P -> (forall a, P a -> Q a) -> safely n m Q.
Proof.
  intros Hm HPQ st Hst Hn. specialize (Hm st Hst Hn).
  destruct (m st); [| exact Hm | exact I].
  destruct Hm as (? & ? & ?). auto.
Qed.

Lemma safely_more n n' {A} (m : M A) (Q : A -> Prop) :
  (n <= n')%nat -> safely n m Q -> safely n' m Q.
Proof. intros Hle Hm st Hst Hn. apply Hm; [exact Hst | lia]. Qed.

Lemma safely_new n mk (Q : Object -> Prop) :
  (forall p, Q (mk p)) -> safely n (new mk) Q.
Proof. intros HQ st Hst Hn. simpl. split_and!; [exact Hst | lia | apply HQ]. Qed.

Lemma safely_typeOf n o : sound o -> safely n (typeOf o) (fun _ => True).
Proof.
  intros Ho. unfold typeOf. destruct (sound_Type o Ho) as [t ->].
  apply safely_ret. exact I.
Qed.

Lemma safely_inspect n o : sound o -> safely n (inspect o) (fun _ => True).
Proof.
  intros Ho. unfold inspect. destruct (sound_Inspect o Ho) as [s ->].
  apply safely_ret. exact I.
Qed.

Lemma safely_Print n s : safely n (Print s) (fun _ => True).
Proof. intros st Hst Hn. simpl. split_and!; [exact Hst | lia | exact I]. Qed.

Lemma safely_ScanLine n : safely n ScanLine (fun _ => True).
Proof.
  intros st Hst Hn. unfold ScanLine.
  destruct (stdin st); simpl; split_and!; first [exact Hst | lia | exact I].
Qed.

Lemma storeSound_snoc st env :
  storeSound st -> store env = ∅ ->
  storeSound (mkState (next st) (envs st ++ [env]) (stdout st) (stdin st)).
Proof.
  intros Hst Hempty e env' name v He Hv. simpl in He.
  apply lookup_app_Some in He as [He | [_ He]].
  - exact (Hst e env' name v He Hv).
  - apply list_lookup_singleton_Some in He as [_ <-].
    rewrite Hempty, lookup_empty in Hv. discriminate Hv.
Qed.

(** After [NewEnclosedEnvironment] the continuation runs with one more
    environment, the new one. *)
Lemma safely_bind_NewEnclosedEnvironment n {B} parent (k : EnvPtr -> M B) Q :
  (forall e, (n <= e)%nat -> safely (S e) (k e) Q) ->
  safely n (bind (NewEnclosedEnvironment parent) k) Q.
Proof.
  intros Hk st Hst Hn. unfold bind, NewEnclosedEnvironment.
  specialize (Hk (length (envs st)) Hn
                (mkState (next st)
                   (envs st ++ [mkEnvironment ∅ (Some parent)])
                   (stdout st) (stdin st))).
  simpl in Hk. rewrite length_app in Hk. simpl in Hk.
  specialize (Hk (storeSound_snoc st (mkEnvironment ∅ (Some parent)) Hst
                    eq_refl) ltac:(lia)).
  destruct (k _ _) as [b st2 | |]; [| exact Hk | exact I].
  destruct Hk as (Hst2 & Hlen & HQ). split_and!; [assumption | lia | assumption].
Qed.

Lemma safely_Get n e name :
  (e < n)%nat ->
  safely n (Get e name) (fun r => snd r = true -> sound (fst r)).
Proof.
  intros He st Hst Hn. unfold Get.
  destruct (lookup_lt_is_Some_2 (envs st) e ltac:(lia)) as [env ->].
  destruct (resolve _ _ _ _) as [e' |];
    [| simpl; split_and!; [exact Hst | lia | discriminate]].
  destruct (envs st !! e') as [env' |] eqn:He';
    [| simpl; split_and!; [exact Hst | lia | discriminate]].
  destruct (store env' !! name) as [v |] eqn:Hv; simpl;
    (split_and!; [exact Hst | lia |]).
  - intros _. exact (Hst e' env' name v He' Hv).
  - discriminate.
Qed.

Lemma storeSound_bindIn st target name val :
  storeSound st -> sound val ->
  storeSound (mkState (next st) (bindIn (envs st) target name val)
                      (stdout st) (stdin st)).
Proof.
  intros Hst Hval e env n v He Hv. simpl in He. unfold bindIn in He.
  destruct (envs st !! target) as [tenv |] eqn:Ht;
    [| exact (Hst e env n v He Hv)].
  destruct (decide (e = target)) as [-> | Hne].
  - rewrite list_lookup_insert_eq in He by (eapply lookup_lt_Some, Ht).
    injection He as <-. simpl in Hv.
    destruct (decide (n = name)) as [-> | Hn].
    + rewrite lookup_insert_eq in Hv. injection Hv as <-. exact Hval.
    + rewrite lookup_insert_ne in Hv by congruence.
      exact (Hst target tenv n v Ht Hv).
  - rewrite list_lookup_insert_ne in He by congruence.
    exact (Hst e env n v He Hv).
Qed.

Lemma safely_Set n e name val :
  (e < n)%nat -> sound val -> safely n (Set_ e name val) (fun _ => True).
Proof.
  intros He Hval st Hst Hn. unfold Set_.
  destruct (lookup_lt_is_Some_2 (envs st) e ltac:(lia)) as [env ->].
  simpl. split_and!; [| rewrite bindIn_length; lia | exact I].
  apply storeSound_bindIn; assumption.
Qed.

Lemma nativeBool_sound b : sound (nativeBoolToBooleanObject b).
Proof. destruct b; exact I. Qed.

Lemma bang_sound v : sound (evalBangOperator v).
Proof. rewrite bang_falsy. apply nativeBool_sound. Qed.

Ltac safely_case :=
  repeat first
    [ apply safely_ret; first [exact I | apply nativeBool_sound
                              | apply bang_sound]
    | apply safely_new; intros ?; exact I
    | apply safely_panic; exact I
    | match goal with
      | |- safely _ (if ?b then _ else _) _ => destruct b
      end ].

Lemma safely_evalPrefixExpression n tok op right :
  sound right -> safely n (evalPrefixExpression tok op right) sound.
Proof.
  intros Hr. unfold evalPrefixExpression, evalMinusPrefixOperator, newError.
  destruct (op =? "!"); [apply safely_ret, bang_sound |].
  destruct (sound_Type right Hr) as [t Ht].
  unfold typeOf. rewrite Ht.
  destruct (op =? "-").
  - intros st Hst Hn. unfold bind, ret.
    destruct right; simpl in Ht; try discriminate Ht; injection Ht as <-;
      simpl; split_and!; first [exact Hst | lia | exact I].
  - intros st Hst Hn. unfold bind, ret. simpl.
    split_and!; first [exact Hst | lia | exact I].
Qed.

Lemma safely_evalInfixExpression n tok op left right :
  sound left -> sound right ->
  safely n (evalInfixExpression tok op left right) sound.
Proof.
  intros Hl Hr.
  destruct left; try (destruct Hl; fail);
    destruct right; try (destruct Hr; fail);
    unfold evalInfixExpression, bothOfType, typeOf, bind, ret,
      evalIntegerInfixExpression, evalStringInfixExpression,
      unknownOperator, newError;
    simpl;
    intros st Hst Hn;
    repeat match goal with
      | |- context [if ?b then _ else _] => destruct b
      end;
    simpl;
    first [ exact I
          | split_and!; first [exact Hst | lia | exact I
                              | apply nativeBool_sound] ].
Qed.

Lemma safely_evalIdentifier n node env :
  (env < n)%nat -> safely n (evalIdentifier node env) sound.
Proof.
  intros He. unfold evalIdentifier, newError.
  eapply safely_bind; [apply safely_Get, He | intros [v ok] Hv].
  simpl in *. destruct ok; simpl.
  - apply safely_ret. auto.
  - apply safely_new. intros p. exact I.
Qed.

Lemma safely_preachAll n args :
  Forall sound args -> safely n (preachAll args) (fun _ => True).
Proof.
  induction 1 as [| a rest Ha Hrest IH]; simpl.
  - apply safely_ret. exact I.
  - eapply safely_bind; [apply safely_inspect, Ha | intros s _].
    eapply safely_bind; [apply safely_Print | intros _ _]. exact IH.
Qed.

Lemma safely_callBuiltin n fn args :
  Forall sound args -> safely n (callBuiltin fn args) sound.
Proof.
  intros Hargs. destruct fn; simpl.
  - eapply safely_bind; [apply safely_preachAll, Hargs | intros _ _].
    apply safely_ret. exact I.
  - eapply (safely_bind _ _ _ (fun _ => True)).
    + destruct Hargs as [| a rest Ha _]; [apply safely_ret; exact I |].
      eapply safely_bind; [apply safely_inspect, Ha | intros s _].
      apply safely_Print.
    + intros _ _.
      eapply safely_bind; [apply safely_ScanLine | intros line _].
      destruct line; apply safely_new; intros p; exact I.
Qed.

Lemma safely_loadModule n name : safely n (loadModule name) sound.
Proof.
  unfold loadModule, createIOModule.
  destruct (name =? "io").
  - intros st Hst Hn. unfold bind, new, ret. simpl.
    split_and!; [exact Hst | lia |].
    intros k m Hm.
    apply lookup_insert_Some in Hm as [[_ <-] | [_ Hm]]; [reflexivity |].
    apply lookup_insert_Some in Hm as [[_ <-] | [_ Hm]]; [reflexivity |].
    rewrite lookup_empty in Hm. discriminate Hm.
  - apply safely_new. intros p. simpl. apply map_Forall_empty.
Qed.

Lemma safely_bindParameters n fnEnv ps args :
  (fnEnv < n)%nat -> Forall sound args ->
  forall i, safely n (bindParameters fnEnv i ps args) (fun _ => True).
Proof.
  intros He Hargs. induction ps as [| param rest IH]; intros i; simpl.
  - apply safely_ret. exact I.
  - destruct (args !! i) as [arg |] eqn:Harg;
      [| apply safely_panic; exact I].
    eapply safely_bind; [| intros _ _; apply IH].
    apply safely_Set; [exact He |].
    rewrite Forall_forall in Hargs. apply Hargs.
    eapply list_elem_of_lookup_2, Harg.
Qed.

Section Safety.

Variable ev : ast.Node -> EnvPtr -> M Object.
Hypothesis Hev :
  forall node env n, (env < n)%nat -> safely n (ev node env) (safePost node).

Lemma safely_expr n e env :
  (env < n)%nat -> safely n (ev (ast.ExprNode e) env) sound.
Proof.
  intros He. eapply safely_weaken; [apply Hev, He |].
  intros r [_ Hr]. exact Hr.
Qed.

Lemma safely_node n node env :
  (env < n)%nat -> safely n (ev node env) soundResult.
Proof.
  intros He. eapply safely_weaken; [apply Hev, He |].
  intros r [Hr _]. exact Hr.
Qed.

Lemma safely_evalProgramFrom n ss env :
  (env < n)%nat ->
  forall result,
    soundResult result ->
    safely n (evalProgramFrom ev ss env result) soundResult.
Proof.
  intros He. induction ss as [| s rest IH]; intros result Hres; simpl.
  - apply safely_ret. exact Hres.
  - eapply safely_bind; [apply safely_node, He | intros r Hr].
    destruct (isError r); [apply safely_ret; exact Hr |].
    destruct r; try (apply IH; exact Hr).
    apply safely_ret. apply sound_result. exact Hr.
Qed.

Lemma safely_evalBlockFrom n ss env :
  (env < n)%nat ->
  forall result,
    soundResult result ->
    safely n (evalBlockFrom ev ss env result) soundResult.
Proof.
  intros He. induction ss as [| s rest IH]; intros result Hres; simpl.
  - apply safely_ret. exact Hres.
  - eapply safely_bind; [apply safely_node, He | intros r Hr].
    destruct (isError r); [apply safely_ret; exact Hr |].
    destruct (isReturn r); [apply safely_ret; exact Hr |].
    apply IH. exact Hr.
Qed.

Lemma safely_evalExpressionsFrom n exps env :
  (env < n)%nat ->
  forall acc,
    Forall sound acc ->
    safely n (evalExpressionsFrom ev exps env acc) (Forall sound).
Proof.
  intros He. induction exps as [| e rest IH]; intros acc Hacc; simpl.
  - apply safely_ret. exact Hacc.
  - eapply safely_bind; [apply safely_expr, He | intros r Hr].
    apply IH. apply Forall_app. split; [exact Hacc |].
    constructor; [exact Hr | constructor].
Qed.

Lemma safely_evalFunctionCall n tok f args env :
  (env < n)%nat -> safely n (evalFunctionCall ev tok f args env) sound.
Proof.
  intros He. unfold evalFunctionCall, evalExpressions.
  eapply safely_bind; [apply safely_expr, He | intros fn Hfn].
  destruct (isError fn); [apply safely_ret; exact Hfn |].
  eapply safely_bind;
    [apply safely_evalExpressionsFrom; [exact He | constructor]
    | intros vs Hvs].
  destruct (onlyArgumentFailed vs) eqn:Hfail.
  { apply safely_ret. destruct Hvs as [| v vs' Hv _]; [| exact Hv].
    discriminate Hfail. }
  destruct fn; try (destruct Hfn; fail);
    try (unfold newError;
         eapply safely_bind; [apply safely_typeOf; exact Hfn | intros t _];
         apply safely_new; intros ?; exact I).
  - apply safely_bind_NewEnclosedEnvironment. intros fnEnv Hle.
    eapply safely_bind;
      [apply safely_bindParameters; [lia | exact Hvs] | intros _ _].
    eapply safely_bind; [apply safely_node; lia | intros r Hr].
    destruct (isError r) eqn:Herr;
      [apply safely_ret, error_sound, Herr |].
    destruct r; apply safely_ret; first [exact I | exact Hr].
  - apply safely_callBuiltin, Hvs.
Qed.

Lemma safely_evalWhileFrom n k c b env :
  (env < n)%nat ->
  forall result,
    soundResult result ->
    safely n (evalWhileFrom ev k c b env result) soundResult.
Proof.
  intros He. induction k as [| k IH]; intros result Hres; simpl.
  - apply safely_diverge.
  - eapply safely_bind; [apply safely_expr, He | intros cond _].
    destruct (negb (isTruthy cond)); [apply safely_ret; exact Hres |].
    eapply safely_bind; [apply safely_node, He | intros r Hr].
    destruct (isReturn r); [apply safely_ret; exact Hr |].
    apply IH. exact Hr.
Qed.

End Safety.

Lemma safePost_of_sound node r : sound r -> safePost node r.
Proof.
  intros Hr. split; [apply sound_result, Hr |]. destruct node; auto.
Qed.

Lemma safePost_of_result node r :
  (forall e, node <> ast.ExprNode e) -> soundResult r -> safePost node r.
Proof.
  intros Hn Hr. split; [exact Hr |].
  destruct node; auto. exfalso. eapply Hn. reflexivity.
Qed.

Lemma safely_Eval fuel :
  forall node env n,
    (env < n)%nat -> safely n (Eval fuel node env) (safePost node).
Proof.
  induction fuel as [| fuel IH]; intros node env n He;
    [apply safely_diverge |].
  destruct node as [p | e | s | b]; simpl.
  - eapply safely_weaken;
      [apply safely_evalProgramFrom; [exact IH | exact He | exact I] |].
    intros r Hr. apply safePost_of_result; [discriminate | exact Hr].
  - eapply safely_weaken with (P := sound); [| apply safePost_of_sound].
    destruct e; simpl.
    + apply safely_evalIdentifier, He.
    + apply safely_new. intros p. exact I.
    + apply safely_ret. apply nativeBool_sound.
    + apply safely_new. intros p. exact I.
    + eapply safely_bind; [apply safely_expr; [exact IH | exact He]
                          | intros r Hr].
      destruct (isError r); [apply safely_ret; exact Hr |].
      apply safely_evalPrefixExpression, Hr.
    + eapply safely_bind; [apply safely_expr; [exact IH | exact He]
                          | intros l Hl].
      destruct (isError l); [apply safely_ret; exact Hl |].
      eapply safely_bind; [apply safely_expr; [exact IH | exact He]
                          | intros r Hr].
      destruct (isError r); [apply safely_ret; exact Hr |].
      apply safely_evalInfixExpression; assumption.
    + apply safely_evalFunctionCall; [exact IH | exact He].
    + unfold evalMemberAccessExpression.
      eapply safely_bind; [apply safely_expr; [exact IH | exact He]
                          | intros o Ho].
      destruct o; try (apply safely_ret; exact I).
      destruct (Members !! ast.IdentValue Member) as [m |] eqn:Hm;
        apply safely_ret; [| exact I].
      apply plain_sound. exact (Ho _ _ Hm).
  - eapply safely_weaken with (P := soundResult);
      [| intros r Hr; apply safePost_of_result; [discriminate | exact Hr]].
    destruct s; simpl.
    + eapply safely_bind; [apply safely_expr; [exact IH | exact He]
                          | intros v Hv].
      eapply safely_bind; [apply safely_Set; [exact He | exact Hv]
                          | intros _ _].
      apply safely_ret, sound_result, Hv.
    + unfold evalAssignmentStatement.
      eapply safely_bind; [apply safely_expr; [exact IH | exact He]
                          | intros v Hv].
      eapply safely_bind; [apply safely_Set; [exact He | exact Hv]
                          | intros _ _].
      apply safely_ret, sound_result, Hv.
    + unfold evalIfStatement.
      eapply safely_bind; [apply safely_expr; [exact IH | exact He]
                          | intros c _].
      destruct (isTruthy c); [apply safely_node; [exact IH | exact He] |].
      destruct Alternative;
        [apply safely_node; [exact IH | exact He] | apply safely_ret; exact I].
    + apply safely_evalWhileFrom; [exact IH | exact He | exact I].
    + unfold evalFunctionDeclaration.
      eapply safely_bind with (P := fun f => sound f /\ soundResult f);
        [apply safely_new; intros p; split; exact I | intros f [Hf Hu]].
      eapply safely_bind; [apply safely_Set; [exact He | exact Hf]
                          | intros _ _].
      apply safely_ret, Hu.
    + unfold evalReturnStatement.
      eapply safely_bind; [apply safely_expr; [exact IH | exact He]
                          | intros v Hv].
      apply safely_new. intros p. exact Hv.
    + unfold evalWrangleStatement.
      eapply safely_bind; [apply safely_loadModule | intros m Hm].
      eapply safely_bind; [apply safely_Set; [exact He | exact Hm]
                          | intros _ _].
      apply safely_ret, sound_result, Hm.
    + eapply safely_weaken;
        [apply safely_expr; [exact IH | exact He] | apply sound_result].
  - eapply safely_weaken;
      [apply safely_evalBlockFrom; [exact IH | exact He | exact I] |].
    intros r Hr. apply safePost_of_result; [discriminate | exact Hr].
Qed.


(** X19. From a store of sound values and with a valid environment, an
    evaluation that panics does so for one of two reasons only: the
    argument index out of range of a call with too few arguments, or an
    integer division by zero.  It never dereferences nil and never fails
    a type assertion; when it ends with a value the store is sound
    again, and the value of an expression is itself sound (not nil, not
    a return signal). *)
Theorem evaluation_fails_only_benignly :
  forall fuel node env st,
    storeSound st -> (env < length (envs st))%nat ->
    match Eval fuel node env st with
    | Done r st' =>
        storeSound st'
        /\ (forall e, node = ast.ExprNode e -> sound r)
    | Panic r _ => benign r
    | OutOfFuel => True
    end.
Proof.
  intros fuel node env st Hst He.
  pose proof (safely_Eval fuel node env (length (envs st)) He st Hst
                (Nat.le_refl _)) as H.
  destruct (Eval fuel node env st) as [r st' | |]; try exact H.
  destruct H as (Hst' & _ & _ & Hr). split; [exact Hst' |].
  intros e ->. exact Hr.
Qed.

Lemma stFirst_sound : storeSound stFirst.
Proof.
  intros e env name v He Hv.
  destruct e as [| e]; simpl in He; [| destruct e; discriminate He].
  injection He as <-. simpl in Hv.
  apply lookup_singleton_Some in Hv as [_ <-]. exact I.
Qed.

Lemma evaluation_fails_only_benignly_witness :
  match Eval 3 (ast.ExprNode (call (var "first") [int 1])) 0 stFirst with
  | Done r st' =>
      storeSound st' /\ (forall e,
                           ast.ExprNode (call (var "first") [int 1])
                           = ast.ExprNode e -> sound r)
  | Panic r _ => benign r
  | OutOfFuel => True
  end.
Proof.
  apply (evaluation_fails_only_benignly 3
           (ast.ExprNode (call (var "first") [int 1])) 0%nat stFirst).
  - exact stFirst_sound.
  - simpl. lia.
Defined.



(** ** Return signals stay inside calls *)

(** X21. From a store that holds no return signal, no expression
    evaluates to a return signal and no statement binds a variable to
    one: whatever is read back from any environment afterwards is not a
    return signal.  The signal exists only between a [serve] and the
    call or program that unwraps it. *)
Theorem return_signals_stay_inside :
  forall fuel node env st r st',
    storeClean st ->
    Eval fuel node env st = Done r st' ->
    (forall e, node = ast.ExprNode e -> isReturn r = false)
    /\ (forall e name v st'',
          Get e name st' = Done (v, true) st'' -> isReturn v = false).
Proof.
  intros fuel node env st r st' Hst Hrun.
  destruct (keeps_Eval fuel node env st r st' Hst Hrun) as [Hst' [_ Hr]].
  split.
  - intros e ->. destruct r; try reflexivity. destruct Hr.
  - intros e name v st'' Hget.
    destruct (keeps_Get e name st' (v, true) st'' Hst' Hget) as [_ Hv].
    destruct v; try reflexivity. destruct Hv.
Qed.

Lemma return_signals_stay_inside_witness :
  (forall e,
     ast.ExprNode (call (var "second") [int 1; int 2]) = ast.ExprNode e ->
     isReturn (Integer 6 2) = false)
  /\ (forall e name v st'',
        Get e name
          (mkState 8
             [mkEnvironment {[ "second" := secondOfTwo ]} None;
              mkEnvironment
                (<["b" := Integer 6 2]> {[ "a" := Integer 5 1 ]}) (Some 0%nat)]
             "" [])
        = Done (v, true) st'' -> isReturn v = false).
Proof.
  apply (return_signals_stay_inside 5
           (ast.ExprNode (call (var "second") [int 1; int 2])) 0%nat stSecond).
  - intros e env name v He Hv.
    destruct e as [| e]; simpl in He; [| destruct e; discriminate He].
    injection He as <-. simpl in Hv.
    apply lookup_singleton_Some in Hv as [_ <-]. exact I.
  - vm_compute. reflexivity.
Defined.

End coverage.
